(** * gptf: committee-machine reductions and the placement/session tree

    A shallow embedding of [gptf/distributed.py] (weight functions and the
    PoE, gPoE, BCM, rBCM and PriorDivisor reductions) and of
    [gptf/wrappedtf.py] (device directives, session ownership and the
    session life-cycle hooks), followed by the properties proved about them.

    Conventions of the embedding.
    - A float tensor entry is a real number: rounding, infinities and NaN
      are outside the model.  [np.finfo(np.float64).eps] is the real 2^-52.
      Division and the logarithm are the total functions of the reals,
      which agree with the float operations only away from a zero divisor
      and on positive arguments; a statement that depends on the value of
      a quotient or of a logarithm carries that as a hypothesis, and no
      statement rests on an identity of the reals that rounding breaks.
    - Building a TensorFlow op and running it are one evaluation step; an
      error TensorFlow would report (dtype or shape mismatch, uneven split)
      is a raised exception of the call.
    - Python exceptions are values of [exn]; a call runs in the monad [M],
      which threads a world state (whatever the experts mutate) and either
      returns or raises.  The world survives a raise, as in Python.
    - The decorators [tf_method] and [overrides] come from the enclosing
      package; they wrap a method in the placement and naming context of
      its instance and do not change what the body computes, so the
      embedding gives the bodies. *)

From Stdlib Require Import String.
From Stdlib Require Import List Arith Lia Bool Reals Lra.
Import ListNotations.

Set Implicit Arguments.
Set Warnings "-register-all".

(** ** Exceptions and the call monad *)

Inductive exn : Type :=
| NotImplementedError
| TypeError
| ValueError
| ZeroDivisionError.

Inductive result (A : Type) : Type :=
| Ok (a : A)
| Raise (e : exn).

Arguments Ok {A} a.
Arguments Raise {A} e.

Definition M (W A : Type) : Type := W -> W * result A.

Definition ret {W A} (a : A) : M W A := fun w => (w, Ok a).

Definition raise {W A} (e : exn) : M W A := fun w => (w, Raise e).

Definition bind {W A B} (c : M W A) (k : A -> M W B) : M W B :=
  fun w =>
    match c w with
    | (w', Ok a) => k a w'
    | (w', Raise e) => (w', Raise e)
    end.

Definition lift {W A} (r : result A) : M W A := fun w => (w, r).

Declare Scope py_scope.
Delimit Scope py_scope with py.

Notation "x <- c ;; k" := (bind c (fun x => k))
  (at level 61, c at next level, right associativity) : py_scope.
Notation "' pat <- c ;; k" := (bind c (fun x => match x with pat => k end))
  (at level 61, pat pattern, c at next level, right associativity) : py_scope.

Open Scope py_scope.

(** [[f(x) for x in xs]]: the calls are made left to right and the first
    raise ends the comprehension. *)
Fixpoint mapM {W A B} (f : A -> M W B) (xs : list A) : M W (list B) :=
  match xs with
  | [] => ret []
  | x :: xs' => v <- f x ;; vs <- mapM f xs' ;; ret (v :: vs)
  end.

(** [a, b = zip( *pairs )]: unpacking needs two tuples, and the zip of no
    pairs yields none. *)
Definition unzip_star {A B} (ps : list (A * B)) : result (list A * list B) :=
  match ps with
  | [] => Raise ValueError
  | _ => Ok (map fst ps, map snd ps)
  end.

(** ** Tensors *)

Module TF.

Inductive DType : Type := float32 | float64.

Definition dtype_eqb (a b : DType) : bool :=
  match a, b with
  | float32, float32 | float64, float64 => true
  | _, _ => false
  end.

(** A rank-2 tensor of shape [(length rows, ncols)]. *)
Record Tensor : Type := mkTensor {
  dtype : DType;
  ncols : nat;
  rows : list (list R)
}.

(** A rank-0 tensor, as [tf.constant] makes from a Python number. *)
Record Scalar : Type := mkScalar {
  scalar_dtype : DType;
  scalar_value : R
}.

(** A rank-3 tensor of shape [(length slices, srows, scols)], the result of
    packing rank-2 tensors along a new leading axis. *)
Record Stack : Type := mkStack {
  sdtype : DType;
  srows : nat;
  scols : nat;
  slices : list (list (list R))
}.

Definition nrows (t : Tensor) : nat := length (rows t).

(** [tf.shape(t)] *)
Definition shape (t : Tensor) : nat * nat := (nrows t, ncols t).

Definition well_shaped (t : Tensor) : Prop :=
  Forall (fun r => length r = ncols t) (rows t).

(** The rows form an [n] by [c] matrix. *)
Definition mat (n c : nat) (rs : list (list R)) : Prop :=
  length rs = n /\ Forall (fun r => length r = c) rs.

Fixpoint map2 {A B C} (f : A -> B -> C) (la : list A) (lb : list B) : list C :=
  match la, lb with
  | a :: la', b :: lb' => f a b :: map2 f la' lb'
  | _, _ => []
  end.

(** Broadcasting of one axis: two extents are compatible when they are
    equal or one of them is 1. *)
Definition bdim (a b : nat) : option nat :=
  if a =? b then Some a
  else if a =? 1 then Some b
  else if b =? 1 then Some a
  else None.

Definition bcast {A B C} (f : A -> B -> C) (la : list A) (lb : list B) : list C :=
  match la, lb with
  | [a], _ => map (f a) lb
  | _, [b] => map (fun a => f a b) la
  | _, _ => map2 f la lb
  end.

(** Elementwise binary operator on rank-2 tensors ([a + b], [a - b],
    [a * b], [a / b]). *)
Definition tbin (f : R -> R -> R) (a b : Tensor) : result Tensor :=
  if negb (dtype_eqb (dtype a) (dtype b)) then Raise TypeError
  else
    match bdim (nrows a) (nrows b), bdim (ncols a) (ncols b) with
    | Some _, Some c =>
        Ok {| dtype := dtype a; ncols := c;
              rows := bcast (bcast f) (rows a) (rows b) |}
    | _, _ => Raise ValueError
    end.

(** Elementwise binary operator on rank-3 tensors. *)
Definition sbin (f : R -> R -> R) (a b : Stack) : result Stack :=
  if negb (dtype_eqb (sdtype a) (sdtype b)) then Raise TypeError
  else
    match bdim (length (slices a)) (length (slices b)),
          bdim (srows a) (srows b), bdim (scols a) (scols b) with
    | Some _, Some r, Some c =>
        Ok {| sdtype := sdtype a; srows := r; scols := c;
              slices := bcast (bcast (bcast f)) (slices a) (slices b) |}
    | _, _, _ => Raise ValueError
    end.

(** A Python number combined with a tensor, and unary ops: the number takes
    the dtype of the tensor. *)
Definition tmap (f : R -> R) (t : Tensor) : Tensor :=
  {| dtype := dtype t; ncols := ncols t; rows := map (map f) (rows t) |}.

Definition smap (f : R -> R) (s : Stack) : Stack :=
  {| sdtype := sdtype s; srows := srows s; scols := scols s;
     slices := map (map (map f)) (slices s) |}.

(** [tf.constant(v, dtype=dt)] *)
Definition constant (v : R) (dt : DType) : Scalar :=
  {| scalar_dtype := dt; scalar_value := v |}.

(** [tf.fill((n, c), s)] *)
Definition fill (dims : nat * nat) (s : Scalar) : Tensor :=
  {| dtype := scalar_dtype s; ncols := snd dims;
     rows := repeat (repeat (scalar_value s) (snd dims)) (fst dims) |}.

(** [tf.ones((n, c), dtype=dt)] *)
Definition ones (dims : nat * nat) (dt : DType) : Tensor :=
  {| dtype := dt; ncols := snd dims;
     rows := repeat (repeat 1%R (snd dims)) (fst dims) |}.

(** [tf.log] and [tf.maximum(t, c)] for a Python number [c].  [tf.log]
    is [ln] on positive entries; at 0 it gives minus infinity and below 0
    no number, which [ln] does not render, so what is proved of [log] is
    proved for positive entries. *)
Definition log (t : Tensor) : Tensor := tmap ln t.

Definition maximum (t : Tensor) (c : R) : Tensor := tmap (fun x => Rmax x c) t.

Fixpoint chunks {A} (k size : nat) (l : list A) : list (list A) :=
  match k with
  | 0 => []
  | S k' => firstn size l :: chunks k' size (skipn size l)
  end.

(** [tf.split(0, num_split, t)]: [num_split] equal pieces along axis 0; the
    extent of that axis must be a multiple of a positive [num_split]. *)
Definition split0 (num_split : nat) (t : Tensor) : result (list Tensor) :=
  match num_split with
  | 0 => Raise ValueError
  | _ =>
      if nrows t mod num_split =? 0
      then Ok (map (mkTensor (dtype t) (ncols t))
                   (chunks num_split (nrows t / num_split) (rows t)))
      else Raise ValueError
  end.

Definition same_kind (a b : Tensor) : bool :=
  dtype_eqb (dtype a) (dtype b) && (nrows a =? nrows b) && (ncols a =? ncols b).

(** [tf.pack(ts, 0)] of a non-empty sequence of tensors of one dtype and
    shape. *)
Definition pack0 (ts : list Tensor) : result Stack :=
  match ts with
  | [] => Raise ValueError
  | t :: rest =>
      if forallb (same_kind t) rest
      then Ok {| sdtype := dtype t; srows := nrows t; scols := ncols t;
                 slices := map rows ts |}
      else Raise ValueError
  end.

(** [tf.reduce_sum(s, 0)] *)
Definition reduce_sum0 (s : Stack) : Tensor :=
  {| dtype := sdtype s; ncols := scols s;
     rows := fold_right (map2 (map2 Rplus))
                        (repeat (repeat 0%R (scols s)) (srows s))
                        (slices s) |}.

(** [tf.concat(0, ts)]: the inverse of [split0], used to state that
    splitting loses nothing. *)
Definition concat0 (ts : list Tensor) : result Tensor :=
  match ts with
  | [] => Raise ValueError
  | t :: rest =>
      if forallb (fun u => dtype_eqb (dtype t) (dtype u) && (ncols t =? ncols u)) rest
      then Ok {| dtype := dtype t; ncols := ncols t;
                 rows := List.concat (map rows ts) |}
      else Raise ValueError
  end.

(** The entry of a tensor at row [i] and column [j]. *)
Definition entry (t : Tensor) (i j : nat) : R :=
  nth j (nth i (rows t) []) 0%R.

(** Every entry of a tensor satisfies [P]. *)
Definition all_entries (P : R -> Prop) (t : Tensor) : Prop :=
  Forall (Forall P) (rows t).

(** [np.finfo(np.float64).eps] *)
Definition float64_eps : R := (/ 2 ^ 52)%R.

End TF.

(** ** gptf/distributed.py *)

Module Distributed.

Import TF.

(** What a reduction consumes of an expert ([GPModel]): its prior and its
    posterior at the query points.  A method may read and change the world
    [W] and may raise. *)
Record GPModel (W : Type) : Type := mkGPModel {
  build_prior_mean_var :
    Tensor -> nat -> bool -> M W (Tensor * Tensor);
  build_posterior_mean_var :
    Tensor -> Tensor -> Tensor -> bool -> M W (Tensor * Tensor)
}.

Section Reductions.

Context {W : Type}.

(** Python binds the arguments of a call before the body runs.
    [build_prior_mean_var(self, test_points, num_latent, full_cov=False)]
    needs [num_latent]; a call without it raises [TypeError], and a call
    without [full_cov] gets [False]. *)
Definition call_prior_method (body : Tensor -> nat -> bool -> M W (Tensor * Tensor))
    (test_points : Tensor) (num_latent : option nat) (full_cov : option bool)
  : M W (Tensor * Tensor) :=
  match num_latent with
  | None => raise TypeError
  | Some n =>
      body test_points n (match full_cov with Some b => b | None => false end)
  end.

(** [build_posterior_mean_var(self, X, Y, test_points, full_cov=False)] *)
Definition call_posterior_method
    (body : Tensor -> Tensor -> Tensor -> bool -> M W (Tensor * Tensor))
    (X Y test_points : Tensor) (full_cov : option bool)
  : M W (Tensor * Tensor) :=
  body X Y test_points (match full_cov with Some b => b | None => false end).

Definition call_prior (m : GPModel W) := call_prior_method (build_prior_mean_var m).

Definition call_posterior (m : GPModel W) :=
  call_posterior_method (build_posterior_mean_var m).

(** The type of [weightfunction]: one weight tensor per expert, as a tuple. *)
Definition WeightFunction : Type :=
  list (GPModel W) -> Tensor -> Tensor -> Tensor -> M W (list Tensor).

(** *** Weight functions *)

(** The function [weight] that [cao_fleet_weights] defines and applies to
    each expert; it closes over [X], [Y] and [points]. *)
Definition cao_fleet_weight (X Y points : Tensor) (expert : GPModel W)
  : M W Tensor :=
  let num_latent := snd (shape Y) in
  prior <- call_prior expert points (Some num_latent) None ;;
  post <- call_posterior expert X Y points None ;;
  let prior_var := snd prior in
  let post_var := snd post in
  diff <- lift (tbin Rminus (log prior_var) (log post_var)) ;;
  let weight := tmap (Rmult (/ 2)) diff in
  ret (maximum weight float64_eps).

Definition cao_fleet_weights : WeightFunction :=
  fun experts X Y points => mapM (cao_fleet_weight X Y points) experts.

(** [1 / len(experts)] under [from __future__ import division]. *)
Definition py_truediv (a b : nat) : result R :=
  if b =? 0 then Raise ZeroDivisionError else Ok (INR a / INR b)%R.

Definition equal_weights : WeightFunction :=
  fun experts X Y points =>
    q <- lift (py_truediv 1 (length experts)) ;;
    let beta := constant q (dtype points) in
    let beta := fill (fst (shape points), 1) beta in
    ret (map (fun _ => beta) experts).

Definition ones_weights : WeightFunction :=
  fun experts X Y points =>
    let ones := ones (fst (shape points), 1) (dtype points) in
    ret (map (fun _ => ones) experts).

(** *** Reduction: the code shared by the committee machines *)

(** Python's [zip] of three sequences stops with the shortest. *)
Fixpoint zip3 {A B C} (la : list A) (lb : list B) (lc : list C) : list (A * B * C) :=
  match la, lb, lc with
  | a :: la', b :: lb', c :: lc' => (a, b, c) :: zip3 la' lb' lc'
  | _, _, _ => []
  end.

Definition _get_chunks (children : list (GPModel W)) (X Y : Tensor)
  : M W (list (GPModel W * Tensor * Tensor)) :=
  let M := length children in
  Xs <- lift (split0 M X) ;;
  Ys <- lift (split0 M Y) ;;
  ret (zip3 children Xs Ys).

Definition Reduction_build_prior_mean_var (children : list (GPModel W))
    (test_points : Tensor) (num_latent : nat) (full_cov : bool)
  : M W (Tensor * Tensor) :=
  if full_cov then raise NotImplementedError
  else
    priors <- mapM (fun child =>
                call_prior child test_points (Some num_latent) (Some full_cov))
              children ;;
    '(mu, var) <- lift (unzip_star priors) ;;
    let M := INR (length children) in
    mu <- lift (pack0 mu) ;;
    var <- lift (pack0 var) ;;
    ret (tmap (fun x => x / M)%R (reduce_sum0 mu),
         tmap (fun x => x / M)%R (reduce_sum0 var)).

(** The comprehension over the chunks that every reduction starts with. *)
Definition child_posteriors (chunks : list (GPModel W * Tensor * Tensor))
    (test_points : Tensor) (full_cov : bool) : M W (list (Tensor * Tensor)) :=
  mapM (fun c => match c with
                 | (child, Xk, Yk) =>
                     call_posterior child Xk Yk test_points (Some full_cov)
                 end) chunks.

(** *** PoE *)

Definition PoE_build_posterior_mean_var (children : list (GPModel W))
    (X Y test_points : Tensor) (full_cov : bool) : M W (Tensor * Tensor) :=
  if full_cov then raise NotImplementedError
  else
    let M := length children in
    Xs <- lift (split0 M X) ;;
    Ys <- lift (split0 M Y) ;;
    let chunks := zip3 children Xs Ys in
    posts <- child_posteriors chunks test_points full_cov ;;
    '(mu, var) <- lift (unzip_star posts) ;;
    mu <- lift (pack0 mu) ;;
    var <- lift (pack0 var) ;;
    let joint_var := tmap (Rdiv 1) (reduce_sum0 (smap (Rdiv 1) var)) in
    mu_over_var <- lift (sbin Rdiv mu var) ;;
    joint_mu <- lift (tbin Rmult joint_var (reduce_sum0 mu_over_var)) ;;
    ret (joint_mu, joint_var).

Definition PoEReduction (children : list (GPModel W)) : GPModel W :=
  {| build_prior_mean_var := Reduction_build_prior_mean_var children;
     build_posterior_mean_var := PoE_build_posterior_mean_var children |}.

(** *** gPoE *)

Definition gPoE_build_posterior_mean_var (children : list (GPModel W))
    (weightfunction : WeightFunction)
    (X Y test_points : Tensor) (full_cov : bool) : M W (Tensor * Tensor) :=
  if full_cov then raise NotImplementedError
  else
    chunks <- _get_chunks children X Y ;;
    posts <- child_posteriors chunks test_points full_cov ;;
    '(mu, var) <- lift (unzip_star posts) ;;
    weight <- weightfunction children X Y test_points ;;
    mu <- lift (pack0 mu) ;;
    var <- lift (pack0 var) ;;
    weight <- lift (pack0 weight) ;;
    w_over_var <- lift (sbin Rdiv weight var) ;;
    let joint_var := tmap (Rdiv 1) (reduce_sum0 w_over_var) in
    w_mu <- lift (sbin Rmult weight mu) ;;
    w_mu_over_var <- lift (sbin Rdiv w_mu var) ;;
    joint_mu <- lift (tbin Rmult joint_var (reduce_sum0 w_mu_over_var)) ;;
    ret (joint_mu, joint_var).

Definition gPoEReduction (children : list (GPModel W))
    (weightfunction : WeightFunction) : GPModel W :=
  {| build_prior_mean_var := Reduction_build_prior_mean_var children;
     build_posterior_mean_var :=
       gPoE_build_posterior_mean_var children weightfunction |}.

(** *** BCM *)

Definition BCM_build_posterior_mean_var (children : list (GPModel W))
    (X Y test_points : Tensor) (full_cov : bool) : M W (Tensor * Tensor) :=
  if full_cov then raise NotImplementedError
  else
    chunks <- _get_chunks children X Y ;;
    posts <- child_posteriors chunks test_points full_cov ;;
    '(mu, var) <- lift (unzip_star posts) ;;
    mu <- lift (pack0 mu) ;;
    var <- lift (pack0 var) ;;
    let num_latent := snd (shape Y) in
    prior <- call_prior_method (Reduction_build_prior_mean_var children)
               test_points (Some num_latent) None ;;
    let prior_var := snd prior in
    let correction :=
      tmap (Rdiv (1 - INR (length children))) prior_var in
    precision <- lift (tbin Rplus (reduce_sum0 (smap (Rdiv 1) var)) correction) ;;
    let joint_var := tmap (Rdiv 1) precision in
    mu_over_var <- lift (sbin Rdiv mu var) ;;
    joint_mu <- lift (tbin Rmult joint_var (reduce_sum0 mu_over_var)) ;;
    ret (joint_mu, joint_var).

Definition BCMReduction (children : list (GPModel W)) : GPModel W :=
  {| build_prior_mean_var := Reduction_build_prior_mean_var children;
     build_posterior_mean_var := BCM_build_posterior_mean_var children |}.

(** *** rBCM *)

Definition rBCM_build_posterior_mean_var (children : list (GPModel W))
    (weightfunction : WeightFunction)
    (X Y test_points : Tensor) (full_cov : bool) : M W (Tensor * Tensor) :=
  if full_cov then raise NotImplementedError
  else
    chunks <- _get_chunks children X Y ;;
    posts <- child_posteriors chunks test_points full_cov ;;
    '(mu, var) <- lift (unzip_star posts) ;;
    weight <- weightfunction children X Y test_points ;;
    mu <- lift (pack0 mu) ;;
    var <- lift (pack0 var) ;;
    weight <- lift (pack0 weight) ;;
    let num_latent := snd (shape Y) in
    prior <- call_prior_method (Reduction_build_prior_mean_var children)
               test_points (Some num_latent) None ;;
    let prior_var := snd prior in
    w_over_var <- lift (sbin Rdiv weight var) ;;
    correction <- lift (tbin Rdiv (tmap (Rminus 1) (reduce_sum0 weight)) prior_var) ;;
    precision <- lift (tbin Rplus (reduce_sum0 w_over_var) correction) ;;
    let joint_var := tmap (Rdiv 1) precision in
    w_mu <- lift (sbin Rmult weight mu) ;;
    w_mu_over_var <- lift (sbin Rdiv w_mu var) ;;
    joint_mu <- lift (tbin Rmult joint_var (reduce_sum0 w_mu_over_var)) ;;
    ret (joint_mu, joint_var).

Definition rBCMReduction (children : list (GPModel W))
    (weightfunction : WeightFunction) : GPModel W :=
  {| build_prior_mean_var := Reduction_build_prior_mean_var children;
     build_posterior_mean_var :=
       rBCM_build_posterior_mean_var children weightfunction |}.

(** *** PriorDivisor *)

Definition PriorDivisor_build_prior_mean_var (child : GPModel W)
    (test_points : Tensor) (num_latent : nat) (full_cov : bool)
  : M W (Tensor * Tensor) :=
  call_prior child test_points (Some num_latent) (Some full_cov).

(** [number - tuple]: Python has no such operation and raises. *)
Definition py_rsub_tuple (c : R) (t : list Tensor) : result Tensor :=
  Raise TypeError.

Definition PriorDivisor_build_posterior_mean_var (child : GPModel W)
    (weightfunction : WeightFunction)
    (X Y test_points : Tensor) (full_cov : bool) : M W (Tensor * Tensor) :=
  if full_cov then raise NotImplementedError
  else
    '(mu, var) <- call_posterior child X Y test_points (Some full_cov) ;;
    weight <- weightfunction [child] X Y test_points ;;
    prior <- call_prior_method (PriorDivisor_build_prior_mean_var child)
               test_points None None ;;
    let prior_precision := tmap (Rdiv 1) (snd prior) in
    let inv_var := tmap (Rdiv 1) var in
    one_minus_weight <- lift (py_rsub_tuple 1 weight) ;;
    correction <- lift (tbin Rmult one_minus_weight prior_precision) ;;
    precision <- lift (tbin Rplus inv_var correction) ;;
    let joint_var := tmap (Rdiv 1) precision in
    jm <- lift (tbin Rmult joint_var mu) ;;
    joint_mu <- lift (tbin Rdiv jm var) ;;
    ret (joint_mu, joint_var).

Definition PriorDivisorReduction (child : GPModel W)
    (weightfunction : WeightFunction) : GPModel W :=
  {| build_prior_mean_var := PriorDivisor_build_prior_mean_var child;
     build_posterior_mean_var :=
       PriorDivisor_build_posterior_mean_var child weightfunction |}.

(** *** What the reductions expect of experts and weights *)

(** A well-formed tensor of dtype [dt] and shape [(n, c)]. *)
Definition has_kind (dt : DType) (n c : nat) (t : Tensor) : Prop :=
  dtype t = dt /\ nrows t = n /\ ncols t = c /\ well_shaped t.

(** The contract of an expert, from the docstrings of [GPModel]: the prior
    at [m] points for [num_latent] outputs returns a mean and a variance of
    shape [(m, num_latent)], and a posterior that returns has a mean and a
    variance of shape [(m, num_latent of Y)]; all of one dtype. *)
Definition expert_contract (dt : DType) (e : GPModel W) : Prop :=
  (forall test_points num_latent w,
      exists w' mu var,
        build_prior_mean_var e test_points num_latent false w = (w', Ok (mu, var))
        /\ has_kind dt (nrows test_points) num_latent mu
        /\ has_kind dt (nrows test_points) num_latent var)
  /\ (forall X Y test_points w w' mu var,
         build_posterior_mean_var e X Y test_points false w = (w', Ok (mu, var)) ->
         has_kind dt (nrows test_points) (ncols Y) mu
         /\ has_kind dt (nrows test_points) (ncols Y) var).

(** An expert with positive variances at the inputs [X], [Y] and [points]:
    called as [cao_fleet_weights] calls them, its prior and its posterior
    return, and each returns a variance of shape [(num_points, num_latent)]
    whose every entry is above 0.  Tensors hold real numbers here; there
    the logarithm of the source and [ln] are the same function, which they
    are not at 0 and below, where [tf.log] gives an infinity or no number. *)
Definition positive_variances_at (X Y points : Tensor) (dt : DType)
    (e : GPModel W) : Prop :=
  (forall w, exists w' mu var,
      call_prior e points (Some (ncols Y)) None w = (w', Ok (mu, var))
      /\ has_kind dt (nrows points) (ncols Y) var
      /\ all_entries (fun v => 0 < v)%R var)
  /\ (forall w, exists w' mu var,
         call_posterior e X Y points None w = (w', Ok (mu, var))
         /\ has_kind dt (nrows points) (ncols Y) var
         /\ all_entries (fun v => 0 < v)%R var).

(** The weights of the experts sum to 1 at every (query point, latent
    output): [tf.reduce_sum(tf.pack(weight, 0), 0)] has every entry 1. *)
Definition weights_sum_to_one (weight : list Tensor) : Prop :=
  Forall well_shaped weight
  /\ forall packed, pack0 weight = Ok packed ->
                   all_entries (eq 1%R) (reduce_sum0 packed).

End Reductions.

End Distributed.

(** ** gptf/wrappedtf.py *)

Module Wrapped.

(** The values [tf_device] takes besides [None]: a device string or
    [tf.DeviceSpec], a device function, or the [NO_DEVICE] sentinel. *)
Inductive Device : Type :=
| DeviceSpec (spec : string)
| DeviceFunction (fn : nat)
| NO_DEVICE.

(** The values [tf_session_target] takes besides [None]. *)
Inductive SessionTarget : Type :=
| TargetString (target : string)
| TargetDict (kwargs : list (string * string)).

(** A [ReusableContextSession] object: its identity and the arguments it
    was constructed with. *)
Record Session : Type := mkSession {
  session_id : nat;
  session_args : option SessionTarget
}.

(** Modelled from the spec: the computation cache that the tree
    collaborator ([TreeWithCache], gptf/trees.py) keeps on every node, a
    dictionary from keys to cached ops. *)
Definition Cache : Type := list (string * nat).

(** A [WrappedTF] object with the objects below it.  The children are the
    tree-valued attributes, in attribute order; the parent link of the
    source is the position of a node inside the tree that contains it, and
    the node whose [parent] is [None] is the root of the tree value. *)
Inductive WrappedTF : Type := mkWrappedTF {
  _tf_device : option Device;
  _tf_session_target : option SessionTarget;
  _tf_session : option Session;
  cache : Cache;
  children : list (string * WrappedTF)
}.

(** A node of a tree, named by the child indices leading to it. *)
Definition path : Type := list nat.

Inductive Event : Type :=
| SessionCreated (s : Session)
| SessionBirth (node : path)
| SessionDeath (node : path)
| SessionClosed (s : Session).

(** What the session machinery changes outside the tree: the supply of
    fresh object identities and the observable sequence of hook calls and
    session constructions and closes. *)
Record World : Type := mkWorld {
  fresh : nat;
  trace : list Event
}.

Definition emit (w : World) (es : list Event) : World :=
  {| fresh := fresh w; trace := trace w ++ es |}.

Definition set_tf_device_field (n : WrappedTF) (v : option Device) : WrappedTF :=
  {| _tf_device := v; _tf_session_target := _tf_session_target n;
     _tf_session := _tf_session n; cache := cache n; children := children n |}.

Definition set_tf_session_target_field (n : WrappedTF) (v : option SessionTarget)
  : WrappedTF :=
  {| _tf_device := _tf_device n; _tf_session_target := v;
     _tf_session := _tf_session n; cache := cache n; children := children n |}.

Definition set_tf_session_field (n : WrappedTF) (v : option Session) : WrappedTF :=
  {| _tf_device := _tf_device n; _tf_session_target := _tf_session_target n;
     _tf_session := v; cache := cache n; children := children n |}.

Definition set_children (n : WrappedTF) (cs : list (string * WrappedTF)) : WrappedTF :=
  {| _tf_device := _tf_device n; _tf_session_target := _tf_session_target n;
     _tf_session := _tf_session n; cache := cache n; children := cs |}.

(** [WrappedTF.__init__] *)
Definition __init__ : WrappedTF :=
  {| _tf_device := None; _tf_session_target := None; _tf_session := None;
     cache := []; children := [] |}.

(** Modelled from the spec: parent lookup of the tree collaborator, as the
    node found by following child indices from the root. *)
Fixpoint get_node (t : WrappedTF) (p : path) : option WrappedTF :=
  match p with
  | [] => Some t
  | i :: p' =>
      match nth_error (children t) i with
      | Some (_, c) => get_node c p'
      | None => None
      end
  end.

Fixpoint update_nth {A} (i : nat) (f : A -> A) (l : list A) : list A :=
  match l, i with
  | [], _ => []
  | x :: l', 0 => f x :: l'
  | x :: l', S i' => x :: update_nth i' f l'
  end.

(** The tree in which the node at [p] is replaced by its image under [f]:
    a mutation of that object, seen from the root. *)
Fixpoint update_node (f : WrappedTF -> WrappedTF) (t : WrappedTF) (p : path)
  : WrappedTF :=
  match p with
  | [] => f t
  | i :: p' =>
      set_children t
        (update_nth i (fun c => (fst c, update_node f (snd c) p')) (children t))
  end.

(** Modelled from the spec: [for node in self], the ordered iteration of the
    tree collaborator over a node and all its descendants, the node first
    and each child's subtree in child order. *)
Fixpoint nodes (t : WrappedTF) : list path :=
  match t with
  | mkWrappedTF _ _ _ _ cs =>
      [] :: (fix walk (i : nat) (cs : list (string * WrappedTF)) : list path :=
               match cs with
               | [] => []
               | (_, c) :: cs' => map (cons i) (nodes c) ++ walk (S i) cs'
               end) 0 cs
  end.

(** The paths of [nodes] below the children [cs], the first of which has
    index [i]. *)
Fixpoint child_paths (i : nat) (cs : list (string * WrappedTF)) : list path :=
  match cs with
  | [] => []
  | (_, c) :: cs' => map (cons i) (nodes c) ++ child_paths (S i) cs'
  end.

(** Modelled from the spec: [clear_subtree_cache], the cache-invalidation
    hook of the tree collaborator; it empties the cache of the node and of
    every node below it. *)
Fixpoint clear_subtree_cache (t : WrappedTF) : WrappedTF :=
  match t with
  | mkWrappedTF d tg s _ cs =>
      mkWrappedTF d tg s []
        (map (fun c => (fst c, clear_subtree_cache (snd c))) cs)
  end.

(** The operations below are methods: [self] is a subtree and [here] its
    path from the root, which names the nodes in the trace. *)

(** What the constructor of a session can raise: Python's [TypeError] for
    a keyword that [tf.Session.__init__] does not have, or the error of the
    execution engine for a target it has no session for. *)
Inductive SessionError : Type :=
| UnexpectedKeyword (keyword : string)
| TargetRefused (target : SessionTarget).

(** The outcome of a call that may raise.  A call of this file that raises
    does so before it has changed anything, so the tree and the world of
    a raise are those the call started with. *)
Inductive call (A : Type) : Type :=
| Done (a : A)
| Raises (e : SessionError).

Arguments Done {A} a.
Arguments Raises {A} e.

(** The targets that the execution engine makes a session for.  The
    engine is not part of the package and is a parameter of every
    operation that constructs a session. *)
Definition Engine : Type := SessionTarget -> bool.

(** The keywords of [tf.Session.__init__(self, target, graph, config)]. *)
Definition session_keywords : list string :=
  ["target"%string; "graph"%string; "config"%string].

(** The first key of a dictionary of keyword arguments that is no keyword
    of the constructor. *)
Fixpoint unexpected_keyword (kwargs : list (string * string)) : option string :=
  match kwargs with
  | [] => None
  | (k, _) :: rest =>
      if existsb (String.eqb k) session_keywords then unexpected_keyword rest
      else Some k
  end.

(** The three calls of the constructor in [new_session]:
    [ReusableContextSession()] for no target,
    [ReusableContextSession( **target )] for a dictionary and
    [ReusableContextSession(target)] otherwise; [None] when the
    constructor returns. *)
Definition session_constructor (engine : Engine) (target : option SessionTarget)
  : option SessionError :=
  match target with
  | None => None
  | Some (TargetDict kwargs) =>
      match unexpected_keyword kwargs with
      | Some k => Some (UnexpectedKeyword k)
      | None =>
          if engine (TargetDict kwargs) then None
          else Some (TargetRefused (TargetDict kwargs))
      end
  | Some (TargetString target) =>
      if engine (TargetString target) then None
      else Some (TargetRefused (TargetString target))
  end.

(** [new_session] of [_maybe_create_session]. *)
Definition new_session (engine : Engine) (self : WrappedTF) (w : World)
  : call (Session * World) :=
  match session_constructor engine (_tf_session_target self) with
  | Some e => Raises e
  | None =>
      Done ({| session_id := fresh w; session_args := _tf_session_target self |},
            {| fresh := S (fresh w); trace := trace w |})
  end.

Definition _maybe_create_session (engine : Engine) (here : path)
    (self : WrappedTF) (w : World) : call (WrappedTF * World) :=
  match _tf_session self with
  | None =>
      match new_session engine self w with
      | Raises e => Raises e
      | Done (s, w1) =>
          let self' := set_tf_session_field self (Some s) in
          Done (self',
                emit (emit w1 [SessionCreated s])
                     (map (fun q => SessionBirth (here ++ q)) (nodes self')))
      end
  | Some _ => Done (self, w)
  end.

Definition _maybe_kill_session (here : path) (self : WrappedTF) (w : World)
  : WrappedTF * World :=
  match _tf_session self with
  | Some s =>
      let w1 := emit w (map (fun q => SessionDeath (here ++ q)) (nodes self)) in
      let w2 := emit w1 [SessionClosed s] in
      (set_tf_session_field self None, w2)
  | None => (self, w)
  end.

(** The setter of the property [tf_device]. *)
Definition tf_device_setter (here : path) (self : WrappedTF)
    (value : option Device) (w : World) : WrappedTF * World :=
  let self1 := clear_subtree_cache self in
  (set_tf_device_field self1 value, w).

(** The setter of the property [tf_session_target]. *)
Definition tf_session_target_setter (here : path) (self : WrappedTF)
    (value : option SessionTarget) (w : World) : WrappedTF * World :=
  let (self1, w1) := _maybe_kill_session here self w in
  (set_tf_session_target_field self1 value, w1).

(** A method call on the object at [p] of the tree [t]; there is no call
    when the tree has no such object. *)
Definition on_node (method : path -> WrappedTF -> World -> WrappedTF * World)
    (t : WrappedTF) (p : path) (w : World) : option (WrappedTF * World) :=
  match get_node t p with
  | Some self =>
      let (self', w') := method p self w in
      Some (update_node (fun _ => self') t p, w')
  | None => None
  end.

(** [node.tf_device = value] and [node.tf_session_target = value] for the
    node at [p]. *)
Definition assign_tf_device (t : WrappedTF) (p : path) (value : option Device) :=
  on_node (fun here self => tf_device_setter here self value) t p.

Definition assign_tf_session_target (t : WrappedTF) (p : path)
    (value : option SessionTarget) :=
  on_node (fun here self => tf_session_target_setter here self value) t p.

(** [get_session]: the root creates the session if need be and returns
    what it stores; any other node asks [highest_parent], the root. *)
Definition get_session (engine : Engine) (t : WrappedTF) (p : path) (w : World)
  : option (call (option Session * WrappedTF * World)) :=
  match get_node t p with
  | None => None
  | Some _ =>
      match _maybe_create_session engine [] t w with
      | Raises e => Some (Raises e)
      | Done (t', w') => Some (Done (_tf_session t', t', w'))
      end
  end.

(** The device contexts that [op_placement_context] enters, outermost
    first: those of the parent, then [tf.device(dev)] for the node's own
    directive, where [NO_DEVICE] enters [tf.device(None)] and an unset
    directive enters nothing. *)
Inductive DeviceContext : Type :=
| EnterDevice (dev : Device)
| EnterNone.

Definition own_device_context (n : WrappedTF) : list DeviceContext :=
  match _tf_device n with
  | None => []
  | Some NO_DEVICE => [EnterNone]
  | Some dev => [EnterDevice dev]
  end.

Fixpoint op_placement_context (t : WrappedTF) (p : path)
  : option (list DeviceContext) :=
  match p with
  | [] => Some (own_device_context t)
  | i :: p' =>
      match nth_error (children t) i with
      | Some (_, c) =>
          match op_placement_context c p' with
          | Some ctx => Some (own_device_context t ++ ctx)
          | None => None
          end
      | None => None
      end
  end.

(** Modelled from the spec: attribute assignment of the tree collaborator
    for a tree-valued attribute.  [value] becomes the child [name] of
    [self], in place of a child of that name or after the last child, and
    [self] becomes its parent.  The collaborator knows the caches it owns
    and empties those of the attached subtree; the session fields are
    those of [WrappedTF] and it does not know them. *)
Fixpoint attach (name : string) (value : WrappedTF)
    (cs : list (string * WrappedTF)) : list (string * WrappedTF) :=
  match cs with
  | [] => [(name, value)]
  | (nm, c) :: cs' =>
      if String.eqb nm name then (name, value) :: cs'
      else (nm, c) :: attach name value cs'
  end.

Definition Tree___setattr__ (self : WrappedTF) (name : string) (value : WrappedTF)
  : WrappedTF :=
  set_children self (attach name (clear_subtree_cache value) (children self)).

(** [WrappedTF.__setattr__] for a tree-valued attribute: the body evaluates
    the constant [NotImplemented], discards it, and calls the base class. *)
Definition __setattr__ (here : path) (self : WrappedTF) (name : string)
    (value : WrappedTF) (w : World) : WrappedTF * World :=
  (Tree___setattr__ self name value, w).

End Wrapped.

(** ** Concrete experts and inputs *)

Module Examples.

Import TF Distributed.

(** A deterministic expert: prior and posterior have mean 0 and variance 1
    at every query point, whatever the data.  It counts the calls made to
    it in the world. *)
Definition stub_expert : GPModel nat :=
  {| build_prior_mean_var := fun test_points num_latent full_cov calls =>
       (S calls,
        Ok (fill (nrows test_points, num_latent) (constant 0 float64),
            fill (nrows test_points, num_latent) (constant 1 float64)));
     build_posterior_mean_var := fun X Y test_points full_cov calls =>
       (S calls,
        Ok (fill (nrows test_points, ncols Y) (constant 0 float64),
            fill (nrows test_points, ncols Y) (constant 1 float64))) |}.

(** An [n] by [c] tensor with every entry [v]. *)
Definition full (n c : nat) (v : R) : Tensor := fill (n, c) (constant v float64).

End Examples.

(** ** More of gptf/wrappedtf.py *)

Module Placement.

Import Wrapped.

(** The device contexts entered for the nodes strictly above the node at
    [p], outermost first: what the recursive call
    [self.parent.op_placement_context()] has entered when the node's own
    directive is looked at. *)
Fixpoint ancestors_context (t : WrappedTF) (p : path) : list DeviceContext :=
  match p with
  | [] => []
  | i :: p' =>
      match nth_error (children t) i with
      | Some (_, c) => own_device_context t ++ ancestors_context c p'
      | None => []
      end
  end.

End Placement.

Module Reusable.

(** The context manager that [self.as_default()] returns, a new object at
    every call. *)
Definition Context : Type := nat.

Inductive ContextEvent : Type :=
| ContextEntered (c : Context)
| ContextExited (c : Context).

(** A [ReusableContextSession]: the list [__context_manager_stack], with
    the supply of context objects and the calls made on them. *)
Record ReusableContextSession : Type := mkReusable {
  __context_manager_stack : list Context;
  next_context : nat;
  context_calls : list ContextEvent
}.

Inductive outcome (A : Type) : Type :=
| Returned (a : A)
| IndexError.

Arguments Returned {A} a.
Arguments IndexError {A}.

(** [ReusableContextSession.__init__] *)
Definition __init__ : ReusableContextSession :=
  {| __context_manager_stack := []; next_context := 0; context_calls := [] |}.

(** [__enter__]: make the context, enter it, append it to the list; the
    method returns [self]. *)
Definition __enter__ (self : ReusableContextSession) : ReusableContextSession :=
  let context := next_context self in
  {| __context_manager_stack := __context_manager_stack self ++ [context];
     next_context := S (next_context self);
     context_calls := context_calls self ++ [ContextEntered context] |}.

(** [__exit__]: [pop(-1)] takes the last context of the list, and raises
    [IndexError] on the empty list; the context taken is exited. *)
Definition __exit__ (self : ReusableContextSession)
  : outcome ReusableContextSession :=
  match __context_manager_stack self with
  | [] => IndexError
  | c0 :: rest =>
      let context := last (c0 :: rest) c0 in
      Returned
        {| __context_manager_stack := removelast (c0 :: rest);
           next_context := next_context self;
           context_calls := context_calls self ++ [ContextExited context] |}
  end.

(** [with session:] nested [n] deep: [n] calls of [__enter__]. *)
Fixpoint enter_times (n : nat) (self : ReusableContextSession)
  : ReusableContextSession :=
  match n with
  | 0 => self
  | S n' => enter_times n' (__enter__ self)
  end.

(** [n] calls of [__exit__], stopping at the first that raises. *)
Fixpoint exit_times (n : nat) (self : ReusableContextSession)
  : outcome ReusableContextSession :=
  match n with
  | 0 => Returned self
  | S n' =>
      match __exit__ self with
      | Returned self' => exit_times n' self'
      | IndexError => IndexError
      end
  end.

End Reusable.

(** * Properties *)

Import TF Distributed.

(** ** Full covariance is rejected *)

(** C1. With [full_cov=True] the posterior of each of the five reductions,
    and the prior of [Reduction], raises [NotImplementedError]; the world
    is the one the call started in, whatever the children and the weight
    function are, so nothing of a child was computed, and the raise is the
    outcome of the call. *)
Theorem full_cov_not_implemented :
  forall (W : Type) (children : list (GPModel W)) (child : GPModel W)
         (weightfunction : WeightFunction) (X Y test_points : Tensor)
         (num_latent : nat) (w : W),
    call_posterior (PoEReduction children) X Y test_points (Some true) w
      = (w, Raise NotImplementedError)
    /\ call_posterior (gPoEReduction children weightfunction) X Y test_points
         (Some true) w = (w, Raise NotImplementedError)
    /\ call_posterior (BCMReduction children) X Y test_points (Some true) w
         = (w, Raise NotImplementedError)
    /\ call_posterior (rBCMReduction children weightfunction) X Y test_points
         (Some true) w = (w, Raise NotImplementedError)
    /\ call_posterior (PriorDivisorReduction child weightfunction) X Y
         test_points (Some true) w = (w, Raise NotImplementedError)
    /\ call_prior_method (Reduction_build_prior_mean_var children) test_points
         (Some num_latent) (Some true) w = (w, Raise NotImplementedError).
Proof.
  intros; repeat split; reflexivity.
Qed.

(** With counting experts the count of calls does not move. *)
Example full_cov_calls_no_child :
  forall X Y test_points calls,
    fst (call_posterior
           (rBCMReduction [Examples.stub_expert; Examples.stub_expert]
                          cao_fleet_weights)
           X Y test_points (Some true) calls) = calls.
Proof. reflexivity. Qed.

(** ** The weight functions *)

Lemma float64_eps_pos : (0 < float64_eps)%R.
Proof.
  unfold float64_eps. apply Rinv_0_lt_compat, pow_lt. lra.
Qed.

Lemma mapM_length :
  forall (W A B : Type) (f : A -> M W B) (xs : list A) (w w' : W) (ys : list B),
    mapM f xs w = (w', Ok ys) -> length ys = length xs.
Proof.
  induction xs as [|x xs IH]; simpl; intros w w' ys H.
  - inversion H; reflexivity.
  - unfold bind in H. destruct (f x w) as [w1 [v|e]]; [|discriminate].
    destruct (mapM f xs w1) as [w2 [vs|e]] eqn:E; [|discriminate].
    inversion H; subst; simpl. f_equal. eapply IH; eassumption.
Qed.

Lemma mapM_Forall :
  forall (W A B : Type) (f : A -> M W B) (P : B -> Prop),
    (forall x w w' y, f x w = (w', Ok y) -> P y) ->
    forall (xs : list A) (w w' : W) (ys : list B),
      mapM f xs w = (w', Ok ys) -> Forall P ys.
Proof.
  intros W A B f P Hf.
  induction xs as [|x xs IH]; simpl; intros w w' ys H.
  - inversion H; constructor.
  - unfold bind in H. destruct (f x w) as [w1 [v|e]] eqn:Ex; [|discriminate].
    destruct (mapM f xs w1) as [w2 [vs|e]] eqn:E; [|discriminate].
    inversion H; subst. constructor; eauto.
Qed.

Lemma mapM_Forall_In :
  forall (W A B : Type) (f : A -> M W B) (P : B -> Prop) (xs : list A),
    (forall x w w' y, In x xs -> f x w = (w', Ok y) -> P y) ->
    forall (w w' : W) (ys : list B),
      mapM f xs w = (w', Ok ys) -> Forall P ys.
Proof.
  intros W A B f P. induction xs as [|x xs IH]; simpl; intros Hf w w' ys H.
  - inversion H; constructor.
  - unfold bind in H. destruct (f x w) as [w1 [v|e]] eqn:Ex; [|discriminate].
    destruct (mapM f xs w1) as [w2 [vs|e]] eqn:E; [|discriminate].
    inversion H; subst. constructor; [eauto|].
    eapply IH; [|exact E]. intros; eauto.
Qed.

Lemma mapM_total :
  forall (W A B : Type) (f : A -> M W B) (P : B -> Prop) (xs : list A),
    (forall x, In x xs -> forall w, exists w' y, f x w = (w', Ok y) /\ P y) ->
    forall w : W,
      exists w' ys, mapM f xs w = (w', Ok ys) /\ Forall P ys
                    /\ length ys = length xs.
Proof.
  intros W A B f P. induction xs as [|x xs IH]; simpl; intros Hf w.
  - exists w, []. repeat split. constructor.
  - destruct (Hf x (or_introl eq_refl) w) as [w1 [y [Hy Py]]].
    destruct (IH (fun x' Hx' => Hf x' (or_intror Hx')) w1)
      as [w2 [ys [Hys [Pys Hl]]]].
    exists w2, (y :: ys). unfold bind. rewrite Hy, Hys. repeat split.
    + constructor; assumption.
    + simpl; now rewrite Hl.
Qed.

Lemma Forall_repeat :
  forall (A : Type) (P : A -> Prop) (a : A) (n : nat), P a -> Forall P (repeat a n).
Proof.
  intros A P a n Ha. induction n; simpl; constructor; assumption.
Qed.

Lemma map_const_repeat :
  forall (A B : Type) (b : B) (l : list A),
    map (fun _ => b) l = repeat b (length l).
Proof.
  induction l as [|a l IH]; simpl; [reflexivity|]. now rewrite IH.
Qed.

(** One weight tensor per expert. *)
Lemma weights_one_per_expert :
  forall (W : Type) (experts : list (GPModel W)) (X Y points : Tensor)
         (w w' : W) (ws : list Tensor),
    (equal_weights experts X Y points w = (w', Ok ws) -> length ws = length experts)
    /\ (ones_weights experts X Y points w = (w', Ok ws) -> length ws = length experts)
    /\ (cao_fleet_weights experts X Y points w = (w', Ok ws) ->
        length ws = length experts).
Proof.
  intros; repeat split; intros H.
  - unfold equal_weights, bind, lift, ret in H.
    destruct (py_truediv 1 (length experts)); [|discriminate].
    inversion H. apply length_map.
  - unfold ones_weights, ret in H. inversion H. apply length_map.
  - eapply mapM_length; eassumption.
Qed.

(** What [equal_weights] returns for [M >= 1] experts: [M] copies of the
    [num_points] by 1 tensor filled with [1 / M], of the dtype of the
    query points. *)
Lemma equal_weights_value :
  forall (W : Type) (e : GPModel W) (es : list (GPModel W))
         (X Y points : Tensor) (w : W),
    equal_weights (e :: es) X Y points w
    = (w, Ok (repeat (fill (nrows points, 1)
                           (constant (1 / INR (length (e :: es))) (dtype points)))
                     (length (e :: es)))).
Proof.
  intros. unfold equal_weights, bind, lift, ret, py_truediv.
  change (length (e :: es) =? 0) with false. cbv iota.
  do 2 f_equal. change (INR 1) with 1%R. apply map_const_repeat.
Qed.

Lemma ones_weights_value :
  forall (W : Type) (experts : list (GPModel W)) (X Y points : Tensor) (w : W),
    ones_weights experts X Y points w
    = (w, Ok (repeat (ones (nrows points, 1) (dtype points)) (length experts))).
Proof.
  intros. unfold ones_weights, ret. do 2 f_equal. apply map_const_repeat.
Qed.

(** Every weight of every weight function is strictly positive; those of
    [cao_fleet_weights], for experts with positive variances, are at least
    the machine epsilon. *)
Lemma cao_fleet_weights_at_least_eps :
  forall (W : Type) (dt : DType) (experts : list (GPModel W))
         (X Y points : Tensor) (w w' : W) (ws : list Tensor),
    Forall (positive_variances_at X Y points dt) experts ->
    cao_fleet_weights experts X Y points w = (w', Ok ws) ->
    Forall (all_entries (fun x => float64_eps <= x)%R) ws.
Proof.
  intros W dt experts X Y points w w' ws _ H.
  unfold cao_fleet_weights in H.
  eapply mapM_Forall; [|exact H].
  clear. intros expert w w' t H.
  unfold cao_fleet_weight, bind, lift, ret in H.
  destruct (call_prior expert points _ None w) as [w1 [pr|]]; [|discriminate].
  destruct (call_posterior expert X Y points None w1) as [w2 [po|]]; [|discriminate].
  destruct (tbin Rminus (log (snd pr)) (log (snd po))) as [d|]; [|discriminate].
  inversion H; subst. unfold all_entries, maximum, tmap; simpl.
  rewrite Forall_forall. intros r Hr. rewrite in_map_iff in Hr.
  destruct Hr as [r0 [<- _]]. rewrite Forall_forall. intros x Hx.
  rewrite in_map_iff in Hx. destruct Hx as [x0 [<- _]]. apply Rmax_r.
Qed.

Lemma weights_positive :
  forall (W : Type) (dt : DType) (experts : list (GPModel W))
         (X Y points : Tensor) (w w' : W) (ws : list Tensor),
    equal_weights experts X Y points w = (w', Ok ws)
    \/ ones_weights experts X Y points w = (w', Ok ws)
    \/ (Forall (positive_variances_at X Y points dt) experts
        /\ cao_fleet_weights experts X Y points w = (w', Ok ws)) ->
    Forall (all_entries (fun x => 0 < x)%R) ws.
Proof.
  intros W dt experts X Y points w w' ws [H|[H|[Hpos H]]].
  - destruct experts as [|e es]; [discriminate|].
    rewrite equal_weights_value in H.
    replace ws with (repeat (fill (nrows points, 1)
                       (constant (1 / INR (length (e :: es))) (dtype points)))
                       (length (e :: es))) by congruence.
    apply Forall_repeat. unfold all_entries, fill, constant.
    cbn [rows scalar_value fst snd repeat].
    apply Forall_repeat. constructor; [|constructor].
    apply Rdiv_lt_0_compat; [lra|]. apply lt_0_INR. simpl; lia.
  - rewrite ones_weights_value in H.
    replace ws with (repeat (ones (nrows points, 1) (dtype points))
                       (length experts)) by congruence.
    apply Forall_repeat. unfold all_entries, ones; simpl.
    apply Forall_repeat. constructor; [lra|constructor].
  - apply (@cao_fleet_weights_at_least_eps W dt experts X Y points w w' ws Hpos) in H.
    eapply Forall_impl; [|exact H]. intros t Ht.
    unfold all_entries in *. eapply Forall_impl; [|exact Ht].
    intros r Hr. eapply Forall_impl; [|exact Hr].
    intros x Hx. simpl in Hx. pose proof float64_eps_pos. lra.
Qed.

(** C3. The shape promised for a weight tensor is
    [(num_points, num_latent)]; for one query point and two latent outputs
    [equal_weights] and [ones_weights] return a tensor of shape [(1, 1)]. *)
Theorem equal_and_ones_weights_shape :
  let X := Examples.full 2 1 0 in
  let Y := Examples.full 2 2 0 in
  let points := Examples.full 1 1 0 in
  (nrows points, ncols Y) = (1, 2)
  /\ (exists t, equal_weights [Examples.stub_expert] X Y points 0 = (0, Ok [t])
                /\ shape t = (1, 1))
  /\ (exists t, ones_weights [Examples.stub_expert] X Y points 0 = (0, Ok [t])
                /\ shape t = (1, 1)).
Proof.
  intros X Y points. split; [reflexivity|]. split.
  - rewrite equal_weights_value. eexists. split; reflexivity.
  - rewrite ones_weights_value. eexists. split; reflexivity.
Qed.

(** C10. [equal_weights] divides by the number of experts without a guard:
    with no expert the call raises [ZeroDivisionError] and returns no
    tuple; with at least one the quotient [1 / M] is defined and the call
    returns. *)
Theorem equal_weights_needs_an_expert :
  forall (W : Type) (X Y points : Tensor) (w : W),
    equal_weights (@nil (GPModel W)) X Y points w = (w, Raise ZeroDivisionError)
    /\ forall (e : GPModel W) (es : list (GPModel W)),
         py_truediv 1 (length (e :: es)) = Ok (1 / INR (length (e :: es)))%R
         /\ INR (length (e :: es)) <> 0%R
         /\ exists ws, equal_weights (e :: es) X Y points w = (w, Ok ws).
Proof.
  intros W X Y points w. split; [reflexivity|].
  intros e es. split; [reflexivity|]. split.
  - apply not_0_INR. simpl; discriminate.
  - eexists. apply equal_weights_value.
Qed.

(** ** PriorDivisor *)

(** The posterior of [PriorDivisorReduction] returns for no input: when the
    child and the weight function return, the prior is asked for without
    [num_latent] and the call raises. *)
Lemma PriorDivisor_posterior_never_returns :
  forall (W : Type) (child : GPModel W) (weightfunction : WeightFunction)
         (X Y test_points : Tensor) (full_cov : option bool) (w : W),
    exists e,
      snd (call_posterior (PriorDivisorReduction child weightfunction)
             X Y test_points full_cov w) = Raise e.
Proof.
  intros. unfold call_posterior, call_posterior_method; simpl.
  unfold PriorDivisor_build_posterior_mean_var.
  destruct (match full_cov with Some b => b | None => false end).
  - eexists; reflexivity.
  - unfold bind.
    destruct (call_posterior child X Y test_points (Some false) w)
      as [w1 [[mu var]|e]]; [|eexists; reflexivity].
    destruct (weightfunction [child] X Y test_points w1) as [w2 [ws|e]];
      eexists; reflexivity.
Qed.

(** C2. For a child with posterior mean 0 and variance 1, the weights of
    [ones_weights] and one training and one query point, the posterior of
    [PriorDivisorReduction] calls the child once and raises [TypeError]; it
    returns no mean and variance. *)
Theorem PriorDivisor_posterior_raises :
  call_posterior (PriorDivisorReduction Examples.stub_expert ones_weights)
    (Examples.full 1 1 0) (Examples.full 1 1 0) (Examples.full 1 1 0)
    (Some false) 0
  = (1, Raise TypeError).
Proof. reflexivity. Qed.

(** ** Chunking the training data *)

Lemma chunks_length :
  forall (A : Type) (k size : nat) (l : list A), length (chunks k size l) = k.
Proof.
  induction k as [|k IH]; simpl; intros; [reflexivity|]. now rewrite IH.
Qed.

Lemma chunks_concat :
  forall (A : Type) (k size : nat) (l : list A),
    length l = k * size -> List.concat (chunks k size l) = l.
Proof.
  induction k as [|k IH]; simpl; intros size l Hl.
  - destruct l; [reflexivity|discriminate].
  - rewrite IH; [apply firstn_skipn|]. rewrite length_skipn. lia.
Qed.

Lemma chunks_nth_error :
  forall (A : Type) (k size : nat) (l : list A) (j : nat) (c : list A),
    nth_error (chunks k size l) j = Some c ->
    c = firstn size (skipn (j * size) l).
Proof.
  induction k as [|k IH]; simpl; intros size l j c H.
  - destruct j; discriminate.
  - destruct j as [|j]; simpl in H.
    + inversion H; reflexivity.
    + apply IH in H. rewrite H, skipn_skipn.
      f_equal. f_equal. simpl. lia.
Qed.

Lemma chunks_size :
  forall (A : Type) (k size : nat) (l : list A),
    length l = k * size -> Forall (fun c => length c = size) (chunks k size l).
Proof.
  induction k as [|k IH]; simpl; intros size l Hl; constructor.
  - rewrite length_firstn. lia.
  - apply IH. rewrite length_skipn. lia.
Qed.

Lemma split0_even :
  forall (num_split : nat) (t : Tensor),
    0 < num_split -> nrows t mod num_split = 0 ->
    split0 num_split t
    = Ok (map (mkTensor (dtype t) (ncols t))
              (chunks num_split (nrows t / num_split) (rows t))).
Proof.
  intros num_split t Hpos Hmod. unfold split0.
  destruct num_split as [|m]; [lia|]. now rewrite Hmod.
Qed.

Lemma zip3_fst :
  forall (A B C : Type) (la : list A) (lb : list B) (lc : list C),
    length lb = length la -> length lc = length la ->
    map (fun c => fst (fst c)) (zip3 la lb lc) = la
    /\ map (fun c => snd (fst c)) (zip3 la lb lc) = lb
    /\ map snd (zip3 la lb lc) = lc.
Proof.
  induction la as [|a la IH]; intros [|b lb] [|c lc] Hb Hc;
    try discriminate; simpl; [repeat split|].
  destruct (IH lb lc) as [H1 [H2 H3]]; [simpl in *; lia ..|].
  now rewrite H1, H2, H3.
Qed.

Lemma zip3_nth_error :
  forall (A B C : Type) (la : list A) (lb : list B) (lc : list C)
         (k : nat) (a : A) (b : B) (c : C),
    nth_error (zip3 la lb lc) k = Some (a, b, c) ->
    nth_error la k = Some a /\ nth_error lb k = Some b /\ nth_error lc k = Some c.
Proof.
  induction la as [|a0 la IH]; intros [|b0 lb] [|c0 lc] k a b c H;
    try (destruct k; discriminate).
  destruct k as [|k]; simpl in *.
  - inversion H; auto.
  - eauto.
Qed.

Lemma concat0_split0 :
  forall (num_split : nat) (t : Tensor),
    0 < num_split -> nrows t mod num_split = 0 ->
    concat0 (map (mkTensor (dtype t) (ncols t))
                 (chunks num_split (nrows t / num_split) (rows t))) = Ok t.
Proof.
  intros num_split t Hpos Hmod.
  assert (Hlen : length (rows t) = num_split * (nrows t / num_split)).
  { unfold nrows in *. pose proof (Nat.div_mod_eq (length (rows t)) num_split). lia. }
  remember (chunks num_split (nrows t / num_split) (rows t)) as cs eqn:Ecs.
  assert (Hcat : List.concat cs = rows t) by (subst cs; apply chunks_concat; exact Hlen).
  assert (Hne : cs <> []).
  { intros ->. pose proof (chunks_length num_split (nrows t / num_split) (rows t)) as Hl.
    rewrite <- Ecs in Hl. simpl in Hl. lia. }
  destruct cs as [|c cs]; [congruence|]. unfold concat0. simpl map.
  cbn [dtype ncols].
  assert (Hall : forallb (fun u => dtype_eqb (dtype t) (dtype u)
                                   && (ncols t =? ncols u))
                         (map (mkTensor (dtype t) (ncols t)) cs) = true).
  { apply forallb_forall. intros u Hu. apply in_map_iff in Hu.
    destruct Hu as [r [<- _]]. cbn [dtype ncols].
    rewrite Nat.eqb_refl. destruct (dtype t); reflexivity. }
  rewrite Hall. rewrite map_map. cbn [rows]. rewrite map_id.
  rewrite Hcat. destruct t; reflexivity.
Qed.

(** C9. For [M >= 1] children and training data whose number of examples
    is a multiple of [M], [_get_chunks] returns [M] triples: the children
    in child order, the [k]-th with rows [k * (n / M)] up to
    [(k + 1) * (n / M)] of [X] and of [Y]; concatenating the groups of [X]
    (of [Y]) in that order gives [X] (gives [Y]) back. *)
Theorem get_chunks_partitions :
  forall (W : Type) (children : list (GPModel W)) (X Y : Tensor) (w : W),
    children <> [] ->
    nrows Y = nrows X ->
    nrows X mod length children = 0 ->
    let size := nrows X / length children in
    exists chunks,
      _get_chunks children X Y w = (w, Ok chunks)
      /\ length chunks = length children
      /\ map (fun c => fst (fst c)) chunks = children
      /\ (forall k child Xk Yk,
             nth_error chunks k = Some (child, Xk, Yk) ->
             nth_error children k = Some child
             /\ rows Xk = firstn size (skipn (k * size) (rows X))
             /\ rows Yk = firstn size (skipn (k * size) (rows Y))
             /\ nrows Xk = size /\ nrows Yk = size)
      /\ concat0 (map (fun c => snd (fst c)) chunks) = Ok X
      /\ concat0 (map snd chunks) = Ok Y.
Proof.
  intros W children X Y w Hne HXY Hmod size.
  assert (Hpos : 0 < length children) by (destruct children; simpl; [congruence|lia]).
  assert (HmodY : nrows Y mod length children = 0) by (now rewrite HXY).
  set (Xs := map (mkTensor (dtype X) (ncols X)) (chunks (length children) size (rows X))).
  set (Ys := map (mkTensor (dtype Y) (ncols Y)) (chunks (length children) size (rows Y))).
  assert (HlX : length Xs = length children)
    by (unfold Xs; rewrite length_map; apply chunks_length).
  assert (HlY : length Ys = length children)
    by (unfold Ys; rewrite length_map; apply chunks_length).
  assert (HnX : length (rows X) = length children * size).
  { unfold size, nrows in *.
    pose proof (Nat.div_mod_eq (length (rows X)) (length children)). lia. }
  assert (HnY : length (rows Y) = length children * size).
  { unfold nrows in HXY. rewrite HXY. exact HnX. }
  destruct (zip3_fst children Xs Ys HlX HlY) as [Hc [HX HY]].
  exists (zip3 children Xs Ys). repeat split.
  - unfold _get_chunks, bind, lift, ret.
    rewrite (split0_even X Hpos Hmod), (split0_even Y Hpos HmodY).
    fold size. rewrite HXY. reflexivity.
  - rewrite <- Hc at 2. now rewrite length_map.
  - exact Hc.
  - apply zip3_nth_error in H. tauto.
  - apply zip3_nth_error in H. destruct H as [_ [H _]].
    unfold Xs in H. rewrite nth_error_map in H.
    destruct (nth_error (chunks _ _ _) k) as [c|] eqn:E; [|discriminate].
    inversion H; subst. simpl. eapply chunks_nth_error; eassumption.
  - apply zip3_nth_error in H. destruct H as [_ [_ H]].
    unfold Ys in H. rewrite nth_error_map in H.
    destruct (nth_error (chunks _ _ _) k) as [c|] eqn:E; [|discriminate].
    inversion H; subst. simpl. eapply chunks_nth_error; eassumption.
  - apply zip3_nth_error in H. destruct H as [_ [H _]].
    unfold Xs in H. rewrite nth_error_map in H.
    destruct (nth_error (chunks _ _ _) k) as [c|] eqn:E; [|discriminate].
    inversion H; subst. unfold nrows at 1. simpl.
    pose proof (chunks_size (length children) size (rows X) HnX) as Hs.
    rewrite Forall_forall in Hs. apply Hs. eapply nth_error_In; eassumption.
  - apply zip3_nth_error in H. destruct H as [_ [_ H]].
    unfold Ys in H. rewrite nth_error_map in H.
    destruct (nth_error (chunks _ _ _) k) as [c|] eqn:E; [|discriminate].
    inversion H; subst. unfold nrows at 1. simpl.
    pose proof (chunks_size (length children) size (rows Y) HnY) as Hs.
    rewrite Forall_forall in Hs. apply Hs. eapply nth_error_In; eassumption.
  - rewrite HX. apply concat0_split0; assumption.
  - rewrite HY. unfold Ys, size. rewrite <- HXY. apply concat0_split0; assumption.
Qed.

(** ** Shapes and entries of elementwise operations *)

Lemma well_shaped_mat :
  forall t, well_shaped t <-> mat (nrows t) (ncols t) (rows t).
Proof.
  intros t. unfold well_shaped, mat, nrows. tauto.
Qed.

Lemma bcast_same_length :
  forall (A B C : Type) (f : A -> B -> C) (la : list A) (lb : list B),
    length la = length lb -> bcast f la lb = map2 f la lb.
Proof.
  intros A B C f [|a [|a' la]] [|b [|b' lb]] H; try discriminate; reflexivity.
Qed.

Lemma bcast_length :
  forall (A B C : Type) (f : A -> B -> C) (la : list A) (lb : list B) (n : nat),
    bdim (length la) (length lb) = Some n -> length (bcast f la lb) = n.
Proof.
  intros A B C f la lb n H. unfold bdim in H.
  destruct (length la =? length lb) eqn:E1.
  - apply Nat.eqb_eq in E1. rewrite bcast_same_length by assumption.
    inversion H; subst. clear H. revert lb E1.
    induction la as [|a la IH]; intros [|b lb] E; simpl in *; try lia.
    f_equal. apply IH. lia.
  - destruct (length la =? 1) eqn:E2.
    + apply Nat.eqb_eq in E2. destruct la as [|a [|a' la]]; try discriminate.
      inversion H; subst. simpl. apply length_map.
    + destruct (length lb =? 1) eqn:E3; [|discriminate].
      apply Nat.eqb_eq in E3. destruct lb as [|b [|b' lb]]; try discriminate.
      inversion H; subst.
      destruct la as [|a [|a' la]]; simpl in *; try discriminate; try reflexivity.
      now rewrite length_map.
Qed.

Lemma bcast_Forall :
  forall (A B C : Type) (f : A -> B -> C) (P : A -> Prop) (Q : B -> Prop)
         (S : C -> Prop),
    (forall a b, P a -> Q b -> S (f a b)) ->
    forall (la : list A) (lb : list B),
      Forall P la -> Forall Q lb -> Forall S (bcast f la lb).
Proof.
  intros A B C f P Q S Hf la lb Ha Hb.
  assert (Hmap2 : forall la lb, Forall P la -> Forall Q lb -> Forall S (map2 f la lb)).
  { clear la lb Ha Hb. induction la as [|a la IH]; intros [|b lb] Ha Hb;
      simpl; try constructor.
    - inversion Ha; inversion Hb; subst; auto.
    - inversion Ha; inversion Hb; subst; auto. }
  assert (Hl : forall a, P a -> Forall S (map (f a) lb)).
  { intros a Pa. rewrite Forall_forall in *. intros x Hx.
    apply in_map_iff in Hx. destruct Hx as [b [<- Hb']]. auto. }
  assert (Hr : forall b, Q b -> Forall S (map (fun a => f a b) la)).
  { intros b Qb. rewrite Forall_forall in *. intros x Hx.
    apply in_map_iff in Hx. destruct Hx as [a [<- Ha']]. auto. }
  destruct la as [|a [|a' la]].
  - destruct lb as [|b [|b' lb]]; simpl; try constructor.
  - inversion Ha; subst. apply (Hl a); assumption.
  - destruct lb as [|b [|b' lb]].
    + constructor.
    + inversion Hb; subst. apply (Hr b); assumption.
    + apply (Hmap2 (a :: a' :: la) (b :: b' :: lb)); assumption.
Qed.

(** Broadcasting two matrices of compatible extents gives a matrix of the
    broadcast extents. *)
Lemma bcast2_mat :
  forall (f : R -> R -> R) (n1 c1 n2 c2 n c : nat) (A B : list (list R)),
    mat n1 c1 A -> mat n2 c2 B ->
    bdim n1 n2 = Some n -> bdim c1 c2 = Some c ->
    mat n c (bcast (bcast f) A B).
Proof.
  intros f n1 c1 n2 c2 n c A B [HA1 HA2] [HB1 HB2] Hn Hc. split.
  - apply bcast_length. now rewrite HA1, HB1.
  - eapply bcast_Forall; [|exact HA2|exact HB2].
    intros ra rb Ha Hb. cbv beta in *. apply bcast_length. now rewrite Ha, Hb.
Qed.

Lemma bcast2_Forall :
  forall (f : R -> R -> R) (P Q S : R -> Prop),
    (forall a b, P a -> Q b -> S (f a b)) ->
    forall (A B : list (list R)),
      Forall (Forall P) A -> Forall (Forall Q) B ->
      Forall (Forall S) (bcast (bcast f) A B).
Proof.
  intros f P Q S Hf A B HA HB.
  eapply bcast_Forall; [|exact HA|exact HB].
  intros ra rb Ha Hb. eapply bcast_Forall; eauto.
Qed.

Lemma map2_nth :
  forall (A B C : Type) (f : A -> B -> C) (la : list A) (lb : list B)
         (i : nat) (da : A) (db : B) (dc : C),
    i < length la -> length la = length lb ->
    nth i (map2 f la lb) dc = f (nth i la da) (nth i lb db).
Proof.
  induction la as [|a la IH]; intros [|b lb] i da db dc Hi Hl;
    simpl in *; try lia.
  destruct i as [|i]; [reflexivity|]. apply IH; lia.
Qed.

Lemma Forall_nth_length :
  forall (rs : list (list R)) (c i : nat),
    Forall (fun r => length r = c) rs -> i < length rs -> length (nth i rs []) = c.
Proof.
  intros rs c i H Hi. rewrite Forall_forall in H. apply H. now apply nth_In.
Qed.

(** An entry of the elementwise combination of two matrices of one shape. *)
Lemma bcast2_entry :
  forall (f : R -> R -> R) (n c : nat) (A B : list (list R)) (i j : nat),
    mat n c A -> mat n c B -> i < n -> j < c ->
    nth j (nth i (bcast (bcast f) A B) []) 0%R
    = f (nth j (nth i A []) 0%R) (nth j (nth i B []) 0%R).
Proof.
  intros f n c A B i j [HA1 HA2] [HB1 HB2] Hi Hj.
  rewrite bcast_same_length by congruence.
  rewrite (map2_nth (bcast f) A B (@nil R) (@nil R) (@nil R)) by congruence.
  assert (La : length (nth i A []) = c) by (apply Forall_nth_length; [assumption|lia]).
  assert (Lb : length (nth i B []) = c) by (apply Forall_nth_length; [assumption|lia]).
  rewrite bcast_same_length by congruence.
  apply map2_nth; congruence.
Qed.

Lemma map_map_entry :
  forall (f : R -> R) (n c : nat) (A : list (list R)) (i j : nat),
    mat n c A -> i < n -> j < c ->
    nth j (nth i (map (map f) A) []) 0%R = f (nth j (nth i A []) 0%R).
Proof.
  intros f n c A i j [HA1 HA2] Hi Hj.
  change (@nil R) with (map f []) at 1. rewrite map_nth.
  assert (La : length (nth i A []) = c) by (apply Forall_nth_length; [assumption|lia]).
  rewrite (nth_indep _ 0%R (f 0%R)) by (rewrite length_map; lia).
  apply map_nth.
Qed.

Lemma map_map_mat :
  forall (f : R -> R) (n c : nat) (A : list (list R)),
    mat n c A -> mat n c (map (map f) A).
Proof.
  intros f n c A [H1 H2]. split.
  - now rewrite length_map.
  - rewrite Forall_forall in *. intros r Hr. apply in_map_iff in Hr.
    destruct Hr as [r0 [<- Hr0]]. rewrite length_map. auto.
Qed.

Lemma bdim_refl : forall n, bdim n n = Some n.
Proof. intros n. unfold bdim. now rewrite Nat.eqb_refl. Qed.

Lemma dtype_eqb_eq : forall a b, dtype_eqb a b = true <-> a = b.
Proof. intros [] []; simpl; split; congruence. Qed.

Lemma shape_tmap : forall f t, shape (tmap f t) = shape t.
Proof.
  intros f t. unfold shape, nrows, tmap; simpl. now rewrite length_map.
Qed.

Lemma tbin_same_shape :
  forall (f : R -> R -> R) (a b : Tensor),
    dtype b = dtype a -> shape b = shape a ->
    tbin f a b = Ok {| dtype := dtype a; ncols := ncols a;
                       rows := bcast (bcast f) (rows a) (rows b) |}.
Proof.
  intros f a b Hd Hs. unfold shape in Hs. injection Hs as Hn Hc.
  unfold tbin. rewrite Hd, Hn, Hc, !bdim_refl.
  replace (dtype_eqb (dtype a) (dtype a)) with true
    by (symmetry; now apply dtype_eqb_eq).
  reflexivity.
Qed.

Lemma mapM_nth_error :
  forall (W A B : Type) (f : A -> M W B) (xs : list A) (w w' : W) (ys : list B)
         (k : nat) (x : A),
    mapM f xs w = (w', Ok ys) -> nth_error xs k = Some x ->
    exists wk wk' y, f x wk = (wk', Ok y) /\ nth_error ys k = Some y.
Proof.
  induction xs as [|x0 xs IH]; intros w w' ys k x H Hk.
  - destruct k; discriminate.
  - simpl in H. unfold bind in H.
    destruct (f x0 w) as [w1 [v|e]] eqn:Ex; [|discriminate].
    destruct (mapM f xs w1) as [w2 [vs|e]] eqn:E; [|discriminate].
    inversion H; subst. destruct k as [|k]; simpl in Hk.
    + inversion Hk; subst. exists w, w1, v. split; [assumption|reflexivity].
    + destruct (IH _ _ _ _ _ E Hk) as [wk [wk' [y [Hy Hn]]]].
      exists wk, wk', y. split; assumption.
Qed.

(** The [k]-th tensor that [cao_fleet_weights] returns is what the function
    [weight] returned for the [k]-th expert. *)
Lemma cao_fleet_weights_nth :
  forall (W : Type) (experts : list (GPModel W)) (X Y points : Tensor)
         (w w' : W) (ws : list Tensor) (k : nat) (expert : GPModel W),
    cao_fleet_weights experts X Y points w = (w', Ok ws) ->
    nth_error experts k = Some expert ->
    exists wk wk' weight,
      cao_fleet_weight X Y points expert wk = (wk', Ok weight)
      /\ nth_error ws k = Some weight.
Proof.
  intros. eapply mapM_nth_error; eassumption.
Qed.

Lemma all_entries_entry :
  forall (P : R -> Prop) (t : Tensor) (i j : nat),
    well_shaped t -> all_entries P t -> i < nrows t -> j < ncols t ->
    P (entry t i j).
Proof.
  intros P t i j Hw Ht Hi Hj. unfold entry, all_entries, nrows in *.
  assert (Hin : In (nth i (rows t) []) (rows t)) by (apply nth_In; lia).
  rewrite Forall_forall in Ht. specialize (Ht _ Hin).
  rewrite Forall_forall in Ht. apply Ht. apply nth_In.
  rewrite (@Forall_nth_length (rows t) (ncols t) i Hw); lia.
Qed.

(** The function [weight] of [cao_fleet_weights] on one expert whose prior
    and posterior return positive variances of one shape. *)
Lemma cao_fleet_weight_entries :
  forall (W : Type) (expert : GPModel W) (X Y points : Tensor) (w w1 w2 : W)
         (prior_mean prior_var post_mean post_var : Tensor),
    call_prior expert points (Some (ncols Y)) None w
      = (w1, Ok (prior_mean, prior_var)) ->
    call_posterior expert X Y points None w1 = (w2, Ok (post_mean, post_var)) ->
    dtype post_var = dtype prior_var ->
    shape post_var = shape prior_var ->
    well_shaped prior_var -> well_shaped post_var ->
    all_entries (fun v => 0 < v)%R prior_var ->
    all_entries (fun v => 0 < v)%R post_var ->
    exists weight,
      cao_fleet_weight X Y points expert w = (w2, Ok weight)
      /\ shape weight = shape prior_var
      /\ forall i j, i < nrows prior_var -> j < ncols prior_var ->
           let beta :=
             (/ 2 * (ln (entry prior_var i j) - ln (entry post_var i j)))%R in
           entry weight i j = Rmax beta float64_eps
           /\ ((float64_eps < beta)%R -> entry weight i j = beta)
           /\ ((beta <= float64_eps)%R -> entry weight i j = float64_eps)
           /\ (entry prior_var i j = entry post_var i j ->
               entry weight i j = float64_eps)
           /\ (float64_eps <= entry weight i j)%R
           /\ (0 < entry weight i j)%R.
Proof.
  intros W expert X Y points w w1 w2 pm pv qm qv Hprior Hpost Hd Hs Hwp Hwq _ _.
  assert (HP : mat (nrows pv) (ncols pv) (rows pv)) by now apply well_shaped_mat.
  assert (HQ : mat (nrows pv) (ncols pv) (rows qv)).
  { unfold shape in Hs. injection Hs as Hn Hc. rewrite <- Hn, <- Hc.
    now apply well_shaped_mat. }
  assert (HD : mat (nrows pv) (ncols pv)
                 (bcast (bcast Rminus) (map (map ln) (rows pv))
                                       (map (map ln) (rows qv)))).
  { eapply bcast2_mat; try apply bdim_refl; apply map_map_mat; assumption. }
  eexists. split; [|split].
  - unfold cao_fleet_weight, bind, lift, ret.
    change (snd (shape Y)) with (ncols Y). rewrite Hprior, Hpost.
    cbn [snd]. rewrite (@tbin_same_shape Rminus (log pv) (log qv)).
    + reflexivity.
    + exact Hd.
    + unfold log. now rewrite !shape_tmap.
  - unfold maximum. rewrite !shape_tmap. unfold shape, nrows at 1.
    cbn [rows ncols log tmap]. destruct HD as [HD _]. now rewrite HD.
  - intros i j Hi Hj beta.
    match goal with
    | |- ?e = _ /\ _ => assert (He : e = Rmax beta float64_eps)
    end.
    { unfold entry at 1. cbn [maximum tmap rows log].
      rewrite (map_map_entry _ (map_map_mat _ HD) Hi Hj).
      rewrite (map_map_entry _ HD Hi Hj).
      rewrite (bcast2_entry Rminus (map_map_mat ln HP) (map_map_mat ln HQ) Hi Hj).
      rewrite (map_map_entry _ HP Hi Hj), (map_map_entry _ HQ Hi Hj).
      reflexivity. }
    rewrite He. pose proof float64_eps_pos as Heps.
    split; [reflexivity|]. split; [|split; [|split; [|split]]].
    + intros Hb. apply Rmax_left. lra.
    + intros Hb. apply Rmax_right. exact Hb.
    + intros Hv. apply Rmax_right. unfold beta. rewrite Hv. lra.
    + apply Rmax_r.
    + pose proof (Rmax_r beta float64_eps). lra.
Qed.

(** C5. For experts whose prior and posterior variances at the inputs are
    positive, [cao_fleet_weights] returns one weight per expert, and the
    weight of the [k]-th expert is the tensor of shape
    [(num_points, num_latent)] whose entry at every (point, latent output)
    is the larger of [0.5 * (log prior_var - log post_var)], taken of the
    variances of that expert, and the machine epsilon: the former when it
    exceeds the epsilon, the epsilon otherwise, and the epsilon in
    particular when the two variances are equal.  The entry is at least
    the epsilon and strictly positive. *)
Theorem cao_fleet_weights_floored :
  forall (W : Type) (dt : DType) (experts : list (GPModel W))
         (X Y points : Tensor) (w : W),
    Forall (positive_variances_at X Y points dt) experts ->
    exists w' weights,
      cao_fleet_weights experts X Y points w = (w', Ok weights)
      /\ length weights = length experts
      /\ forall k expert,
           nth_error experts k = Some expert ->
           exists wk w1 w2 prior_mean prior_var post_mean post_var weight,
             call_prior expert points (Some (ncols Y)) None wk
               = (w1, Ok (prior_mean, prior_var))
             /\ call_posterior expert X Y points None w1
                = (w2, Ok (post_mean, post_var))
             /\ nth_error weights k = Some weight
             /\ shape weight = (nrows points, ncols Y)
             /\ forall i j, i < nrows points -> j < ncols Y ->
                  let beta :=
                    (/ 2 * (ln (entry prior_var i j)
                            - ln (entry post_var i j)))%R in
                  (0 < entry prior_var i j)%R
                  /\ (0 < entry post_var i j)%R
                  /\ entry weight i j = Rmax beta float64_eps
                  /\ ((float64_eps < beta)%R -> entry weight i j = beta)
                  /\ ((beta <= float64_eps)%R ->
                      entry weight i j = float64_eps)
                  /\ (entry prior_var i j = entry post_var i j ->
                      entry weight i j = float64_eps)
                  /\ (float64_eps <= entry weight i j)%R
                  /\ (0 < entry weight i j)%R.
Proof.
  intros W dt experts X Y points w Hpos.
  assert (Hone : forall expert, In expert experts -> forall wk,
             exists w1 w2 pm pv qm qv,
               call_prior expert points (Some (ncols Y)) None wk
                 = (w1, Ok (pm, pv))
               /\ call_posterior expert X Y points None w1 = (w2, Ok (qm, qv))
               /\ has_kind dt (nrows points) (ncols Y) pv
               /\ has_kind dt (nrows points) (ncols Y) qv
               /\ all_entries (fun v => 0 < v)%R pv
               /\ all_entries (fun v => 0 < v)%R qv).
  { intros expert Hin wk. rewrite Forall_forall in Hpos.
    destruct (Hpos expert Hin) as [Hprior Hpost].
    destruct (Hprior wk) as [w1 [pm [pv [H1 [K1 P1]]]]].
    destruct (Hpost w1) as [w2 [qm [qv [H2 [K2 P2]]]]].
    exists w1, w2, pm, pv, qm, qv. do 5 (split; [assumption|]). assumption. }
  destruct (@mapM_total W _ _ (cao_fleet_weight X Y points) (fun _ => True)
              experts) with (w := w) as [w' [weights [Hws [_ Hlen]]]].
  { intros expert Hin wk.
    destruct (Hone expert Hin wk)
      as [w1 [w2 [pm [pv [qm [qv [H1 [H2 [K1 [K2 [P1 P2]]]]]]]]]]].
    destruct K1 as [D1 [N1 [C1 S1]]]. destruct K2 as [D2 [N2 [C2 S2]]].
    destruct (@cao_fleet_weight_entries W expert X Y points wk w1 w2 pm pv qm qv
                H1 H2) as [weight [Hw _]];
      try assumption; [congruence|unfold shape; congruence|].
    exists w2, weight. split; [exact Hw|exact I]. }
  exists w', weights. split; [exact Hws|]. split; [exact Hlen|].
  intros k expert Hk.
  destruct (@cao_fleet_weights_nth W experts X Y points w w' weights k expert
              Hws Hk)
    as [wk [wk' [weight [Hcw Hnth]]]].
  destruct (Hone expert (nth_error_In _ _ Hk) wk)
    as [w1 [w2 [pm [pv [qm [qv [H1 [H2 [K1 [K2 [P1 P2]]]]]]]]]]].
  destruct K1 as [D1 [N1 [C1 S1]]]. destruct K2 as [D2 [N2 [C2 S2]]].
  destruct (@cao_fleet_weight_entries W expert X Y points wk w1 w2 pm pv qm qv
              H1 H2) as [weight' [Hw [Hshape Hentries]]];
    try assumption; [congruence|unfold shape; congruence|].
  assert (weight' = weight) by congruence. subst weight'.
  exists wk, w1, w2, pm, pv, qm, qv, weight.
  split; [exact H1|]. split; [exact H2|]. split; [exact Hnth|].
  split; [rewrite Hshape; unfold shape; congruence|].
  intros i j Hi Hj beta.
  split; [apply all_entries_entry; try assumption; congruence|].
  split; [apply all_entries_entry; try assumption; congruence|].
  apply Hentries; congruence.
Qed.

(** ** rBCM with weights that sum to one *)

Lemma map2_length :
  forall (A B C : Type) (f : A -> B -> C) (la : list A) (lb : list B),
    length la = length lb -> length (map2 f la lb) = length la.
Proof.
  induction la as [|a la IH]; intros [|b lb] H; simpl in *; try lia.
  f_equal. apply IH. lia.
Qed.

Lemma map2_Forall :
  forall (A B C : Type) (f : A -> B -> C) (P : A -> Prop) (Q : B -> Prop)
         (S : C -> Prop),
    (forall a b, P a -> Q b -> S (f a b)) ->
    forall (la : list A) (lb : list B),
      Forall P la -> Forall Q lb -> Forall S (map2 f la lb).
Proof.
  intros A B C f P Q S Hf.
  induction la as [|a la IH]; intros [|b lb] Ha Hb; simpl; try constructor.
  - inversion Ha; inversion Hb; subst; auto.
  - inversion Ha; inversion Hb; subst; auto.
Qed.

Lemma map2_map2_mat :
  forall (f : R -> R -> R) (n c : nat) (A B : list (list R)),
    mat n c A -> mat n c B -> mat n c (map2 (map2 f) A B).
Proof.
  intros f n c A B [HA1 HA2] [HB1 HB2]. split.
  - rewrite map2_length; congruence.
  - eapply map2_Forall; [|exact HA2|exact HB2].
    intros ra rb Ha Hb. cbv beta in *. rewrite map2_length; congruence.
Qed.

Lemma repeat_mat : forall (n c : nat) (v : R), mat n c (repeat (repeat v c) n).
Proof.
  intros n c v. split.
  - apply repeat_length.
  - apply Forall_repeat. apply repeat_length.
Qed.

Lemma reduce_sum0_mat :
  forall (s : Stack),
    Forall (mat (srows s) (scols s)) (slices s) ->
    mat (srows s) (scols s) (rows (reduce_sum0 s)).
Proof.
  intros s H. unfold reduce_sum0. cbn [rows].
  induction H as [|A sl HA Hsl IH]; simpl.
  - apply repeat_mat.
  - apply map2_map2_mat; assumption.
Qed.

(** Adding a matrix of zeros of the same shape changes nothing. *)
Lemma bcast2_add_zeros :
  forall (n c : nat) (A Z : list (list R)),
    mat n c A -> mat n c Z -> Forall (Forall (eq 0%R)) Z ->
    bcast (bcast Rplus) A Z = A.
Proof.
  intros n c A Z [HA1 HA2] [HZ1 HZ2] H0.
  rewrite bcast_same_length by congruence.
  assert (Hlen : length A = length Z) by congruence.
  clear HA1 HZ1. revert Z HZ2 H0 Hlen.
  induction HA2 as [|ra A Hra HA IH]; intros [|rz Zs] HZ2 H0 Hlen;
    simpl in *; try reflexivity; try discriminate.
  inversion HZ2 as [|? ? Hrz HZ]; inversion H0 as [|? ? Hz0 HZ0]; subst.
  rewrite (IH Zs HZ HZ0) by lia. f_equal.
  rewrite bcast_same_length by congruence.
  clear - Hrz Hz0. revert rz Hrz Hz0.
  induction ra as [|x ra IHr]; intros [|z rz] Hl Hz; simpl in *;
    try reflexivity; try discriminate.
  inversion Hz; subst. rewrite IHr by (auto; lia). f_equal. lra.
Qed.

(** What [pack0] returns. *)
Lemma pack0_Ok :
  forall (ts : list Tensor) (s : Stack),
    pack0 ts = Ok s ->
    exists t rest,
      ts = t :: rest
      /\ s = {| sdtype := dtype t; srows := nrows t; scols := ncols t;
               slices := map rows ts |}
      /\ Forall (fun u => dtype u = dtype t /\ nrows u = nrows t
                          /\ ncols u = ncols t) ts.
Proof.
  intros [|t rest] s H; [discriminate|]. unfold pack0 in H.
  destruct (forallb (same_kind t) rest) eqn:E; [|discriminate].
  inversion H; subst. exists t, rest. repeat split.
  constructor; [auto|]. rewrite forallb_forall in E.
  rewrite Forall_forall. intros u Hu. specialize (E u Hu).
  unfold same_kind in E. apply andb_prop in E. destruct E as [E E3].
  apply andb_prop in E. destruct E as [E1 E2].
  apply dtype_eqb_eq in E1. apply Nat.eqb_eq in E2. apply Nat.eqb_eq in E3.
  auto.
Qed.

Lemma pack0_mat :
  forall (ts : list Tensor) (s : Stack),
    pack0 ts = Ok s -> Forall well_shaped ts ->
    Forall (mat (srows s) (scols s)) (slices s).
Proof.
  intros ts s H Hw. destruct (pack0_Ok ts H) as [t [rest [-> [-> Hk]]]].
  cbn [srows scols slices]. rewrite Forall_forall in *.
  intros r Hr. apply in_map_iff in Hr. destruct Hr as [u [<- Hu]].
  destruct (Hk u Hu) as [_ [Hn Hc]]. rewrite <- Hn, <- Hc.
  apply well_shaped_mat. auto.
Qed.

Lemma pack0_kind :
  forall (dt : DType) (n c : nat) (ts : list Tensor) (s : Stack),
    pack0 ts = Ok s -> Forall (has_kind dt n c) ts ->
    sdtype s = dt /\ srows s = n /\ scols s = c
    /\ Forall (mat n c) (slices s).
Proof.
  intros dt n c ts s H Hk. destruct (pack0_Ok ts H) as [t [rest [-> [-> _]]]].
  cbn [sdtype srows scols slices].
  assert (Ht : has_kind dt n c t) by (inversion Hk; assumption).
  destruct Ht as [Hd [Hn [Hc _]]]. repeat split; try assumption.
  rewrite Forall_forall in *. intros r Hr. apply in_map_iff in Hr.
  destruct Hr as [u [<- Hu]]. destruct (Hk u Hu) as [_ [Hn' [Hc' Hw]]].
  rewrite <- Hn', <- Hc'. now apply well_shaped_mat.
Qed.

(** [pack0] succeeds on a non-empty sequence of tensors of one kind. *)
Lemma pack0_total :
  forall (dt : DType) (n c : nat) (ts : list Tensor),
    ts <> [] -> Forall (has_kind dt n c) ts -> exists s, pack0 ts = Ok s.
Proof.
  intros dt n c [|t rest] Hne Hk; [congruence|]. unfold pack0.
  replace (forallb (same_kind t) rest) with true; [eexists; reflexivity|].
  symmetry. apply forallb_forall. intros u Hu.
  inversion Hk as [|? ? [Hd [Hn [Hc _]]] Hrest]; subst.
  rewrite Forall_forall in Hrest. destruct (Hrest u Hu) as [Hd' [Hn' [Hc' _]]].
  unfold same_kind. rewrite Hd', Hn', Hc', !Nat.eqb_refl.
  replace (dtype_eqb (dtype t) (dtype t)) with true
    by (symmetry; now apply dtype_eqb_eq).
  reflexivity.
Qed.

Lemma zip3_In :
  forall (A B C : Type) (la : list A) (lb : list B) (lc : list C) (x : A * B * C),
    In x (zip3 la lb lc) ->
    In (fst (fst x)) la /\ In (snd (fst x)) lb /\ In (snd x) lc.
Proof.
  induction la as [|a la IH]; intros [|b lb] [|c lc] x H; simpl in H;
    try contradiction.
  destruct H as [<-|H]; simpl; [auto|].
  destruct (IH lb lc x H) as [H1 [H2 H3]]. auto.
Qed.

Lemma split0_Ok :
  forall (num_split : nat) (t : Tensor) (ts : list Tensor),
    split0 num_split t = Ok ts ->
    0 < num_split /\ Forall (fun u => ncols u = ncols t) ts.
Proof.
  intros num_split t ts H. unfold split0 in H.
  destruct num_split as [|m] eqn:E; [discriminate|]. rewrite <- E in *.
  destruct (nrows t mod num_split =? 0); [|discriminate].
  injection H as <-.
  split; [lia|]. rewrite Forall_forall. intros u Hu.
  apply in_map_iff in Hu. destruct Hu as [r [<- _]]. reflexivity.
Qed.

Lemma get_chunks_Ok :
  forall (W : Type) (children : list (GPModel W)) (X Y : Tensor) (w w' : W)
         (chunks : list (GPModel W * Tensor * Tensor)),
    _get_chunks children X Y w = (w', Ok chunks) ->
    children <> []
    /\ Forall (fun c => In (fst (fst c)) children /\ ncols (snd c) = ncols Y) chunks.
Proof.
  intros W children X Y w w' chunks H. unfold _get_chunks, bind, lift, ret in H.
  destruct (split0 (length children) X) as [Xs|] eqn:EX; [|discriminate].
  destruct (split0 (length children) Y) as [Ys|] eqn:EY; [|discriminate].
  inversion H; subst. apply split0_Ok in EY. destruct EY as [Hpos HY]. split.
  - intros ->. simpl in Hpos. lia.
  - rewrite Forall_forall in *. intros c Hc. apply zip3_In in Hc.
    destruct Hc as [H1 [_ H3]]. auto.
Qed.

Lemma has_kind_scale :
  forall (dt : DType) (s : Stack) (f : R -> R),
    sdtype s = dt -> Forall (mat (srows s) (scols s)) (slices s) ->
    has_kind dt (srows s) (scols s) (tmap f (reduce_sum0 s)).
Proof.
  intros dt s f Hd Hm. pose proof (reduce_sum0_mat s Hm) as Hr.
  pose proof (map_map_mat f Hr) as [H1 H2].
  unfold has_kind. repeat split; try assumption.
Qed.

(** Under the contract of the experts the prior of a reduction with at
    least one child returns, and what it returns meets the contract. *)
Lemma Reduction_prior_total :
  forall (W : Type) (dt : DType) (children : list (GPModel W))
         (test_points : Tensor) (num_latent : nat) (w : W),
    children <> [] -> Forall (expert_contract dt) children ->
    exists w' mu var,
      Reduction_build_prior_mean_var children test_points num_latent false w
      = (w', Ok (mu, var))
      /\ has_kind dt (nrows test_points) num_latent mu
      /\ has_kind dt (nrows test_points) num_latent var.
Proof.
  intros W dt children pts L w Hne Hc.
  unfold Reduction_build_prior_mean_var.
  destruct (@mapM_total W _ _
              (fun child => call_prior child pts (Some L) (Some false))
              (fun mv => has_kind dt (nrows pts) L (fst mv)
                         /\ has_kind dt (nrows pts) L (snd mv))
              children) with (w := w) as [w' [priors [Hp [Hk Hl]]]].
  { intros e He w0. rewrite Forall_forall in Hc.
    destruct (Hc e He) as [Hprior _].
    destruct (Hprior pts L w0) as [w1 [mu [var [H1 [H2 H3]]]]].
    exists w1, (mu, var). split; [exact H1|]. split; assumption. }
  assert (Hpne : priors <> []).
  { intros ->. destruct children; [congruence|discriminate]. }
  assert (Hmu : Forall (has_kind dt (nrows pts) L) (map fst priors)).
  { rewrite Forall_forall in *. intros t Ht. apply in_map_iff in Ht.
    destruct Ht as [mv [<- Hmv]]. apply Hk; assumption. }
  assert (Hvar : Forall (has_kind dt (nrows pts) L) (map snd priors)).
  { rewrite Forall_forall in *. intros t Ht. apply in_map_iff in Ht.
    destruct Ht as [mv [<- Hmv]]. apply Hk; assumption. }
  destruct (@pack0_total dt (nrows pts) L (map fst priors)) as [smu Esmu];
    [destruct priors; [congruence|discriminate]|assumption|].
  destruct (@pack0_total dt (nrows pts) L (map snd priors)) as [svar Esvar];
    [destruct priors; [congruence|discriminate]|assumption|].
  destruct (pack0_kind Esmu Hmu) as [Hd1 [Hn1 [Hc1 Hm1]]].
  destruct (pack0_kind Esvar Hvar) as [Hd2 [Hn2 [Hc2 Hm2]]].
  exists w'. do 2 eexists. split.
  - unfold bind, lift, ret. rewrite Hp.
    unfold unzip_star. destruct priors as [|p priors]; [congruence|].
    rewrite Esmu, Esvar. reflexivity.
  - rewrite <- Hn1, <- Hc1 at 1. rewrite <- Hn2, <- Hc2.
    split; apply has_kind_scale; try assumption.
    + now rewrite Hn1, Hc1.
    + now rewrite Hn2, Hc2.
Qed.

Lemma sbin_Ok :
  forall (f : R -> R -> R) (a b q : Stack),
    sbin f a b = Ok q ->
    sdtype b = sdtype a /\ sdtype q = sdtype a
    /\ bdim (srows a) (srows b) = Some (srows q)
    /\ bdim (scols a) (scols b) = Some (scols q)
    /\ slices q = bcast (bcast (bcast f)) (slices a) (slices b).
Proof.
  intros f a b q H. unfold sbin in H.
  destruct (dtype_eqb (sdtype a) (sdtype b)) eqn:Ed; [|discriminate].
  apply dtype_eqb_eq in Ed. cbn [negb] in H.
  destruct (bdim (length (slices a)) (length (slices b))); [|discriminate].
  destruct (bdim (srows a) (srows b)) as [r|]; [|discriminate].
  destruct (bdim (scols a) (scols b)) as [c|]; [|discriminate].
  inversion H; subst; cbn. auto.
Qed.

Lemma sbin_mat :
  forall (f : R -> R -> R) (a b q : Stack),
    sbin f a b = Ok q ->
    Forall (mat (srows a) (scols a)) (slices a) ->
    Forall (mat (srows b) (scols b)) (slices b) ->
    Forall (mat (srows q) (scols q)) (slices q).
Proof.
  intros f a b q H Ha Hb.
  destruct (sbin_Ok f a b H) as [_ [_ [Hr [Hc ->]]]].
  eapply bcast_Forall; [|exact Ha|exact Hb].
  intros A B HA HB. eapply bcast2_mat; eassumption.
Qed.

Lemma tbin_Ok_intro :
  forall (f : R -> R -> R) (a b : Tensor) (n c : nat),
    dtype b = dtype a ->
    bdim (nrows a) (nrows b) = Some n -> bdim (ncols a) (ncols b) = Some c ->
    tbin f a b = Ok {| dtype := dtype a; ncols := c;
                       rows := bcast (bcast f) (rows a) (rows b) |}.
Proof.
  intros f a b n c Hd Hn Hc. unfold tbin. rewrite Hd, Hn, Hc.
  replace (dtype_eqb (dtype a) (dtype a)) with true
    by (symmetry; now apply dtype_eqb_eq).
  reflexivity.
Qed.

(** When the weights sum to one and the prior variance is nowhere zero,
    the prior correction of rBCM is a tensor of zeros of the shape of the
    weighted precision, and adding it leaves the weighted precision as it
    is. *)
Lemma correction_vanishes :
  forall (dt : DType) (n L : nat) (weight var q : Stack) (prior_var : Tensor),
    Forall (mat (srows weight) (scols weight)) (slices weight) ->
    sdtype var = dt -> srows var = n -> scols var = L ->
    Forall (mat n L) (slices var) ->
    has_kind dt n L prior_var ->
    all_entries (fun v => v <> 0%R) prior_var ->
    all_entries (eq 1%R) (reduce_sum0 weight) ->
    sbin Rdiv weight var = Ok q ->
    exists correction,
      tbin Rdiv (tmap (Rminus 1) (reduce_sum0 weight)) prior_var = Ok correction
      /\ all_entries (eq 0%R) correction
      /\ tbin Rplus (reduce_sum0 q) correction = Ok (reduce_sum0 q).
Proof.
  intros dt n L weight var q pv Hw Hd Hn HL Hv [Hpd [Hpn [Hpc Hpw]]] Hnz Hone Hq.
  destruct (sbin_Ok Rdiv weight var Hq) as [Hdv [Hdq [Hr [Hc Hsl]]]].
  rewrite Hn in Hr. rewrite HL in Hc.
  pose proof (reduce_sum0_mat weight Hw) as Hsum.
  pose proof (map_map_mat (Rminus 1) Hsum) as HZ.
  assert (HP : mat n L (rows pv)).
  { rewrite <- Hpn, <- Hpc. now apply well_shaped_mat. }
  assert (HQ : Forall (mat (srows q) (scols q)) (slices q)).
  { eapply sbin_mat; [exact Hq|exact Hw|]. now rewrite Hn, HL. }
  pose proof (reduce_sum0_mat q HQ) as HS.
  set (Z := tmap (Rminus 1) (reduce_sum0 weight)) in *.
  change (mat (srows weight) (scols weight) (rows Z)) in HZ.
  assert (HZ0 : Forall (Forall (eq 0%R)) (rows Z)).
  { unfold Z, tmap. cbn [rows]. unfold all_entries in Hone.
    rewrite Forall_forall in *. intros r Hr0. apply in_map_iff in Hr0.
    destruct Hr0 as [r0 [<- Hr0]]. specialize (Hone r0 Hr0).
    rewrite Forall_forall in *. intros x Hx. apply in_map_iff in Hx.
    destruct Hx as [x0 [<- Hx0]]. rewrite <- (Hone x0 Hx0). lra. }
  assert (HC : mat (srows q) (scols q) (bcast (bcast Rdiv) (rows Z) (rows pv))).
  { eapply bcast2_mat; [exact HZ|exact HP|exact Hr|exact Hc]. }
  assert (HC0 : Forall (Forall (eq 0%R)) (bcast (bcast Rdiv) (rows Z) (rows pv))).
  { eapply (bcast2_Forall Rdiv (P := eq 0%R) (Q := fun v => v <> 0%R));
      [|exact HZ0|exact Hnz].
    intros a b <- Hb. symmetry. now apply Rdiv_0_l. }
  eexists. split; [|split].
  - apply tbin_Ok_intro with (n := srows q).
    + unfold Z. cbn [dtype tmap reduce_sum0]. congruence.
    + destruct HZ as [HZn _]. unfold nrows in *. rewrite HZn, Hpn. exact Hr.
    + unfold Z. cbn [ncols tmap reduce_sum0]. rewrite Hpc. exact Hc.
  - exact HC0.
  - rewrite (@tbin_Ok_intro Rplus (reduce_sum0 q) _ (srows q) (scols q)).
    + cbn [rows dtype ncols]. rewrite (bcast2_add_zeros HS HC HC0).
      reflexivity.
    + unfold Z. cbn [dtype tmap reduce_sum0]. congruence.
    + destruct HS as [HSn _]. destruct HC as [HCn _].
      unfold nrows. cbn [rows] in *. rewrite HSn, HCn. apply bdim_refl.
    + cbn [ncols reduce_sum0]. apply bdim_refl.
Qed.

Lemma child_posteriors_kind :
  forall (W : Type) (dt : DType) (children : list (GPModel W))
         (chunks : list (GPModel W * Tensor * Tensor))
         (Y test_points : Tensor) (w w' : W) (posts : list (Tensor * Tensor)),
    Forall (expert_contract dt) children ->
    Forall (fun c => In (fst (fst c)) children /\ ncols (snd c) = ncols Y) chunks ->
    child_posteriors chunks test_points false w = (w', Ok posts) ->
    Forall (has_kind dt (nrows test_points) (ncols Y)) (map snd posts).
Proof.
  intros W dt children chunks Y pts w w' posts Hc Hch H.
  unfold child_posteriors in H.
  assert (Hp : Forall (fun mv => has_kind dt (nrows pts) (ncols Y) (snd mv)) posts).
  { eapply mapM_Forall_In; [|exact H].
    intros [[child Xk] Yk] w0 w1 [mu var] Hin Hcall.
    rewrite Forall_forall in Hch, Hc.
    destruct (Hch _ Hin) as [Hchild HYk]. cbn [fst snd] in *.
    destruct (Hc child Hchild) as [_ Hpost].
    destruct (Hpost Xk Yk pts w0 w1 mu var Hcall) as [_ Hvar].
    now rewrite <- HYk. }
  rewrite Forall_forall in *. intros t Ht. apply in_map_iff in Ht.
  destruct Ht as [mv [<- Hmv]]. auto.
Qed.

(** C4. For children that meet the expert contract, a weight function
    whose weights sum to 1 at every (query point, latent output), and a
    prior variance of the rBCM model that is zero at none of them, the
    posterior of rBCM is the posterior of gPoE with the same children and
    weight function: the same mean and variance, or the same exception.
    The correction [(1 - sum beta) / prior_var] is a tensor of zeros. *)
Theorem rBCM_is_gPoE_when_weights_sum_to_one :
  forall (W : Type) (dt : DType) (children : list (GPModel W))
         (weightfunction : WeightFunction) (X Y test_points : Tensor) (w : W),
    Forall (expert_contract dt) children ->
    (forall w0 w1 weight,
        weightfunction children X Y test_points w0 = (w1, Ok weight) ->
        weights_sum_to_one weight) ->
    (forall w0 w1 prior_mean prior_var,
        call_prior (rBCMReduction children weightfunction)
          test_points (Some (ncols Y)) None w0
        = (w1, Ok (prior_mean, prior_var)) ->
        all_entries (fun v => v <> 0%R) prior_var) ->
    snd (call_posterior (rBCMReduction children weightfunction)
           X Y test_points (Some false) w)
    = snd (call_posterior (gPoEReduction children weightfunction)
             X Y test_points (Some false) w).
Proof.
  intros W dt children wf X Y pts w Hc Hsum Hprior_nz.
  unfold call_posterior, call_posterior_method.
  cbn [build_posterior_mean_var rBCMReduction gPoEReduction].
  unfold rBCM_build_posterior_mean_var, gPoE_build_posterior_mean_var, bind, lift.
  destruct (_get_chunks children X Y w) as [w1 [chunks|e]] eqn:Ech; [|reflexivity].
  destruct (child_posteriors chunks pts false w1) as [w2 [posts|e]] eqn:Ep;
    [|reflexivity].
  destruct (unzip_star posts) as [[mu var]|e] eqn:Eu; [|reflexivity].
  destruct (wf children X Y pts w2) as [w3 [weight|e]] eqn:Ew; [|reflexivity].
  destruct (pack0 mu) as [smu|e] eqn:Emu; [|reflexivity].
  destruct (pack0 var) as [svar|e] eqn:Evar; [|reflexivity].
  destruct (pack0 weight) as [sw|e] eqn:Esw; [|reflexivity].
  destruct (get_chunks_Ok _ _ _ _ Ech) as [Hne Hch].
  assert (Hvar : Forall (has_kind dt (nrows pts) (ncols Y)) var).
  { assert (Ev : var = map snd posts).
    { unfold unzip_star in Eu. destruct posts; [discriminate|].
      injection Eu as _ <-. reflexivity. }
    rewrite Ev. eapply child_posteriors_kind; eassumption. }
  destruct (pack0_kind Evar Hvar) as [Hd [Hn [HL Hm]]].
  destruct (Hsum _ _ _ Ew) as [Hww Hone]. specialize (Hone sw Esw).
  pose proof (pack0_mat Esw Hww) as Hwm.
  destruct (@Reduction_prior_total W dt children pts (snd (shape Y)) w3 Hne Hc)
    as [w4 [pm [pv [Hprior [_ Hpv]]]]].
  assert (Hnz : all_entries (fun v => v <> 0%R) pv)
    by exact (Hprior_nz w3 w4 pm pv Hprior).
  unfold call_prior_method. rewrite Hprior. cbn [snd].
  destruct (sbin Rdiv sw svar) as [q|e] eqn:Eq; [|reflexivity].
  destruct (@correction_vanishes dt (nrows pts) (ncols Y) sw svar q pv
              Hwm Hd Hn HL Hm Hpv Hnz Hone Eq) as [c [Hcorr [_ Hplus]]].
  rewrite Hcorr, Hplus. unfold ret.
  destruct (sbin Rmult sw smu) as [wm|e]; [|reflexivity].
  destruct (sbin Rdiv wm svar) as [wmv|e]; [|reflexivity].
  destruct (tbin Rmult _ (reduce_sum0 wmv)); reflexivity.
Qed.

(** ** The placement tree *)

Import Wrapped.

Lemma WrappedTF_induction :
  forall P : WrappedTF -> Prop,
    (forall d tg s c cs,
        Forall (fun nc => P (snd nc)) cs -> P (mkWrappedTF d tg s c cs)) ->
    forall t, P t.
Proof.
  intros P H. fix IH 1. intros [d tg s c cs]. apply H.
  induction cs as [|[nm ch] cs IHcs]; constructor.
  - apply IH.
  - exact IHcs.
Qed.

Lemma nodes_unfold :
  forall t, nodes t = [] :: child_paths 0 (children t).
Proof.
  intros [d tg s c cs]. reflexivity.
Qed.







Lemma nodes_children :
  forall t t' : WrappedTF, children t' = children t -> nodes t' = nodes t.
Proof.
  intros t t' H. rewrite !nodes_unfold. now rewrite H.
Qed.

(** ** Session life cycle *)


(** ** What the setters change *)

Lemma nth_error_update_nth_eq :
  forall (A : Type) (f : A -> A) (l : list A) (i : nat),
    nth_error (update_nth i f l) i = option_map f (nth_error l i).
Proof.
  induction l as [|x l IH]; intros [|i]; simpl; auto.
Qed.

Lemma nth_error_update_nth_neq :
  forall (A : Type) (f : A -> A) (l : list A) (i j : nat),
    i <> j -> nth_error (update_nth i f l) j = nth_error l j.
Proof.
  induction l as [|x l IH]; intros [|i] [|j] H; simpl; auto; congruence.
Qed.

(** Replacing the node at [p] by [n'] shows, for a field [proj], only
    where [n'] differs from the node it replaces. *)
Lemma update_node_frame :
  forall (A : Type) (proj : WrappedTF -> A) (ok : path -> Prop),
    (forall m cs, proj (set_children m cs) = proj m) ->
    forall (p : path) (t n n' : WrappedTF) (q : path),
      get_node t p = Some n ->
      (forall r, ok r ->
                 option_map proj (get_node n' r) = option_map proj (get_node n r)) ->
      (forall r, q = p ++ r -> ok r) ->
      option_map proj (get_node (update_node (fun _ => n') t p) q)
      = option_map proj (get_node t q).
Proof.
  intros A proj ok Hproj. induction p as [|i p IH]; intros t n n' q Hn Hsame Hok.
  - cbn in Hn. inversion Hn; subst. cbn. apply Hsame. apply Hok. reflexivity.
  - cbn [get_node] in Hn.
    destruct (nth_error (children t) i) as [[nm c]|] eqn:Ei; [|discriminate].
    cbn [update_node]. destruct q as [|j q]; cbn [get_node].
    + cbn [option_map]. f_equal. apply Hproj.
    + cbn [children set_children]. destruct (Nat.eq_dec i j) as [<-|Hij].
      * rewrite nth_error_update_nth_eq, Ei. cbn [option_map fst snd].
        apply (IH c n n' q Hn Hsame). intros r ->. apply Hok. reflexivity.
      * rewrite nth_error_update_nth_neq by assumption. reflexivity.
Qed.

(** The node found below the replaced one is found in the replacement. *)
Lemma get_node_update_below :
  forall (p : path) (t n n' : WrappedTF) (r : path),
    get_node t p = Some n ->
    get_node (update_node (fun _ => n') t p) (p ++ r) = get_node n' r.
Proof.
  induction p as [|i p IH]; intros t n n' r Hn; [reflexivity|].
  cbn [get_node] in Hn.
  destruct (nth_error (children t) i) as [[nm c]|] eqn:Ei; [|discriminate].
  cbn [update_node app get_node children set_children].
  rewrite nth_error_update_nth_eq, Ei. cbn [option_map fst snd].
  eapply IH; eassumption.
Qed.

Lemma child_paths_update_nth :
  forall (g : string * WrappedTF -> string * WrappedTF)
         (cs : list (string * WrappedTF)) (i k : nat) (nc : string * WrappedTF),
    nth_error cs i = Some nc -> nodes (snd (g nc)) = nodes (snd nc) ->
    child_paths k (update_nth i g cs) = child_paths k cs.
Proof.
  induction cs as [|[nm c] cs IH]; intros [|i] k nc Hn Hg; simpl in Hn;
    try discriminate.
  - inversion Hn; subst. cbn [update_nth child_paths].
    destruct (g (nm, c)) as [nm' c'] eqn:Eg. cbn [snd] in Hg. now rewrite Hg.
  - cbn [update_nth child_paths]. f_equal. eapply IH; eassumption.
Qed.

Lemma nodes_update :
  forall (p : path) (t n n' : WrappedTF),
    get_node t p = Some n -> nodes n' = nodes n ->
    nodes (update_node (fun _ => n') t p) = nodes t.
Proof.
  induction p as [|i p IH]; intros t n n' Hn Hnodes.
  - cbn in Hn. inversion Hn; subst. exact Hnodes.
  - cbn [get_node] in Hn.
    destruct (nth_error (children t) i) as [[nm c]|] eqn:Ei; [|discriminate].
    cbn [update_node]. rewrite !nodes_unfold. cbn [children set_children].
    f_equal. eapply child_paths_update_nth; [exact Ei|].
    cbn [snd]. eapply IH; eassumption.
Qed.

Lemma children_clear_subtree_cache :
  forall t,
    children (clear_subtree_cache t)
    = map (fun c => (fst c, clear_subtree_cache (snd c))) (children t).
Proof. intros [d tg s c cs]. reflexivity. Qed.

Lemma get_node_clear_subtree_cache :
  forall (r : path) (t : WrappedTF),
    get_node (clear_subtree_cache t) r
    = option_map clear_subtree_cache (get_node t r).
Proof.
  induction r as [|i r IH]; intros t; [reflexivity|].
  cbn [get_node]. rewrite children_clear_subtree_cache, nth_error_map.
  destruct (nth_error (children t) i) as [[nm c]|]; [|reflexivity].
  cbn [option_map fst snd]. apply IH.
Qed.

Lemma nodes_clear_subtree_cache :
  forall t, nodes (clear_subtree_cache t) = nodes t.
Proof.
  intros t. induction t as [d tg s c cs IH] using WrappedTF_induction.
  rewrite !nodes_unfold, children_clear_subtree_cache. cbn [children].
  f_equal. generalize 0.
  induction IH as [|[nm ch] cs Hch Hcs IHcs]; intros k; [reflexivity|].
  cbn [map child_paths fst snd] in *. now rewrite Hch, IHcs.
Qed.

Lemma fields_clear_subtree_cache :
  forall t,
    _tf_device (clear_subtree_cache t) = _tf_device t
    /\ _tf_session_target (clear_subtree_cache t) = _tf_session_target t
    /\ _tf_session (clear_subtree_cache t) = _tf_session t
    /\ cache (clear_subtree_cache t) = [].
Proof. intros [d tg s c cs]. repeat split. Qed.

Lemma option_map_compose :
  forall (A B C : Type) (f : A -> B) (g : B -> C) (o : option A),
    option_map g (option_map f o) = option_map (fun a => g (f a)) o.
Proof. intros A B C f g [a|]; reflexivity. Qed.

Lemma option_map_ext :
  forall (A B : Type) (f g : A -> B) (o : option A),
    (forall a, f a = g a) -> option_map f o = option_map g o.
Proof. intros A B f g [a|] H; simpl; [now rewrite H|reflexivity]. Qed.

Lemma get_node_app :
  forall (p : path) (t n : WrappedTF) (r : path),
    get_node t p = Some n -> get_node t (p ++ r) = get_node n r.
Proof.
  induction p as [|i p IH]; intros t n r Hn.
  - cbn in Hn. now inversion Hn.
  - cbn [get_node app] in *.
    destruct (nth_error (children t) i) as [[nm c]|]; [|discriminate].
    now apply IH.
Qed.

(** What assigning [tf_device] to the node at [p] changes: the directive
    of that node and the caches of the node and of the nodes below it. *)
Lemma assign_tf_device_effect :
  forall (t n : WrappedTF) (p : path) (value : option Device) (w : World),
    get_node t p = Some n ->
    exists t',
      assign_tf_device t p value w = Some (t', w)
      /\ (exists n', get_node t' p = Some n'
                     /\ _tf_device n' = value /\ cache n' = [])
      /\ (forall r, option_map cache (get_node t' (p ++ r))
                    = option_map (fun _ => []) (get_node t (p ++ r)))
      /\ (forall q, option_map _tf_session (get_node t' q)
                    = option_map _tf_session (get_node t q))
      /\ (forall q, option_map _tf_session_target (get_node t' q)
                    = option_map _tf_session_target (get_node t q))
      /\ (forall q, q <> p ->
                    option_map _tf_device (get_node t' q)
                    = option_map _tf_device (get_node t q))
      /\ (forall q, (forall r, q <> p ++ r) ->
                    option_map cache (get_node t' q)
                    = option_map cache (get_node t q))
      /\ nodes t' = nodes t.
Proof.
  intros t n p value w Hn.
  unfold assign_tf_device, on_node, tf_device_setter. rewrite Hn.
  set (n' := set_tf_device_field (clear_subtree_cache n) value).
  assert (Hbelow : forall r, r <> [] ->
            get_node n' r = option_map clear_subtree_cache (get_node n r)).
  { intros [|i r] Hr; [congruence|].
    rewrite <- get_node_clear_subtree_cache. reflexivity. }
  assert (Hfield : forall (A : Type) (proj : WrappedTF -> A),
            (forall m, proj (clear_subtree_cache m) = proj m) ->
            forall r, r <> [] ->
              option_map proj (get_node n' r) = option_map proj (get_node n r)).
  { intros A proj Hp r Hr. rewrite (Hbelow r Hr), option_map_compose.
    apply option_map_ext. exact Hp. }
  eexists. split; [reflexivity|]. split; [|split; [|split; [|split; [|split; [|split]]]]].
  - exists n'. split.
    + rewrite <- (app_nil_r p) at 2. erewrite get_node_update_below by eassumption.
      reflexivity.
    + split; [reflexivity|]. apply fields_clear_subtree_cache.
  - intros r. erewrite get_node_update_below by eassumption.
    rewrite (@get_node_app p t n r Hn). destruct r as [|i r].
    + cbn. f_equal. apply fields_clear_subtree_cache.
    + rewrite Hbelow by discriminate. rewrite option_map_compose.
      apply option_map_ext. intros m. apply fields_clear_subtree_cache.
  - intros q.
    apply (@update_node_frame _ _tf_session (fun _ => True)
             (fun _ _ => eq_refl) p t n n' q Hn); [|trivial].
    intros [|i r] _.
    + cbn. f_equal. apply fields_clear_subtree_cache.
    + apply Hfield; [|discriminate]. intros m. apply fields_clear_subtree_cache.
  - intros q.
    apply (@update_node_frame _ _tf_session_target (fun _ => True)
             (fun _ _ => eq_refl) p t n n' q Hn); [|trivial].
    intros [|i r] _.
    + cbn. f_equal. apply fields_clear_subtree_cache.
    + apply Hfield; [|discriminate]. intros m. apply fields_clear_subtree_cache.
  - intros q Hq.
    apply (@update_node_frame _ _tf_device (fun r => r <> [])
             (fun _ _ => eq_refl) p t n n' q Hn).
    + intros r Hr. apply Hfield; [|assumption].
      intros m. apply fields_clear_subtree_cache.
    + intros r -> ->. apply Hq. now rewrite app_nil_r.
  - intros q Hq.
    apply (@update_node_frame _ cache (fun _ => False)
             (fun _ _ => eq_refl) p t n n' q Hn); [contradiction|].
    intros r Hr. exact (Hq r Hr).
  - eapply nodes_update; [eassumption|]. unfold n'.
    rewrite <- (nodes_clear_subtree_cache n). apply nodes_children. reflexivity.
Qed.

(** What assigning [tf_session_target] to the node at [p] changes: the
    target of that node and, when the node owns a session, that session,
    which is torn down. *)
Lemma assign_tf_session_target_effect :
  forall (t n : WrappedTF) (p : path) (value : option SessionTarget) (w : World),
    get_node t p = Some n ->
    exists t' w',
      assign_tf_session_target t p value w = Some (t', w')
      /\ fresh w' = fresh w
      /\ trace w' = trace w ++
                    match _tf_session n with
                    | Some s => map (fun q => SessionDeath (p ++ q)) (nodes n)
                                ++ [SessionClosed s]
                    | None => []
                    end
      /\ (exists n', get_node t' p = Some n'
                     /\ _tf_session_target n' = value /\ _tf_session n' = None)
      /\ (forall q, option_map cache (get_node t' q)
                    = option_map cache (get_node t q))
      /\ (forall q, option_map _tf_device (get_node t' q)
                    = option_map _tf_device (get_node t q))
      /\ (forall q, q <> p ->
                    option_map _tf_session_target (get_node t' q)
                    = option_map _tf_session_target (get_node t q))
      /\ (forall q, q <> p ->
                    option_map _tf_session (get_node t' q)
                    = option_map _tf_session (get_node t q))
      /\ nodes t' = nodes t.
Proof.
  intros t n p value w Hn.
  unfold assign_tf_session_target, on_node, tf_session_target_setter. rewrite Hn.
  destruct (_maybe_kill_session p n w) as [n1 w1] eqn:Ek.
  set (n' := set_tf_session_target_field n1 value).
  assert (Hk : children n1 = children n /\ cache n1 = cache n
               /\ _tf_device n1 = _tf_device n /\ _tf_session n1 = None
               /\ fresh w1 = fresh w
               /\ trace w1 = trace w ++
                    match _tf_session n with
                    | Some s => map (fun q => SessionDeath (p ++ q)) (nodes n)
                                ++ [SessionClosed s]
                    | None => []
                    end).
  { unfold _maybe_kill_session in Ek. destruct (_tf_session n) as [s|] eqn:Es.
    - inversion Ek; subst. unfold emit; cbn. rewrite <- app_assoc. auto 10.
    - inversion Ek; subst. rewrite app_nil_r. auto 10. }
  destruct Hk as [Hch [Hca [Hde [Hse [Hfr Htr]]]]].
  assert (Hbelow : forall r, r <> [] -> get_node n' r = get_node n r).
  { intros [|i r] Hr; [congruence|]. cbn [get_node]. unfold n'.
    cbn [children set_tf_session_target_field]. now rewrite Hch. }
  do 2 eexists. split; [reflexivity|]. split; [exact Hfr|]. split; [exact Htr|].
  split; [|split; [|split; [|split; [|split]]]].
  - exists n'. split.
    + rewrite <- (app_nil_r p) at 2. erewrite get_node_update_below by eassumption.
      reflexivity.
    + split; [reflexivity|exact Hse].
  - intros q.
    apply (@update_node_frame _ cache (fun _ => True)
             (fun _ _ => eq_refl) p t n n' q Hn); [|trivial].
    intros [|i r] _; [cbn; f_equal; exact Hca|].
    now rewrite Hbelow by discriminate.
  - intros q.
    apply (@update_node_frame _ _tf_device (fun _ => True)
             (fun _ _ => eq_refl) p t n n' q Hn); [|trivial].
    intros [|i r] _; [cbn; f_equal; exact Hde|].
    now rewrite Hbelow by discriminate.
  - intros q Hq.
    apply (@update_node_frame _ _tf_session_target (fun r => r <> [])
             (fun _ _ => eq_refl) p t n n' q Hn).
    + intros r Hr. now rewrite Hbelow.
    + intros r -> ->. apply Hq. now rewrite app_nil_r.
  - intros q Hq.
    apply (@update_node_frame _ _tf_session (fun r => r <> [])
             (fun _ _ => eq_refl) p t n n' q Hn).
    + intros r Hr. now rewrite Hbelow.
    + intros r -> ->. apply Hq. now rewrite app_nil_r.
  - eapply nodes_update; [eassumption|]. apply nodes_children. exact Hch.
Qed.

(** C7. For the node at any position [p] of a tree: assigning [tf_device]
    empties the computation cache of the node (the hook empties those of
    the nodes below it as well), sets the directive of the node, and
    leaves every session, every session target, every other directive,
    every cache outside the subtree, the shape of the tree and the world
    as they were, so no hook runs and no session is closed or made;
    assigning [tf_session_target] tears down the session the node owns,
    if it owns one, sets the target of the node, and leaves every cache,
    every directive, every other target and session, the shape of the
    tree and the supply of identities as they were. *)
Theorem setters_change_only_their_own :
  forall (t n : WrappedTF) (p : path) (device : option Device)
         (target : option SessionTarget) (w : World),
    get_node t p = Some n ->
    (exists t',
        assign_tf_device t p device w = Some (t', w)
        /\ (exists n', get_node t' p = Some n'
                       /\ _tf_device n' = device /\ cache n' = [])
        /\ (forall r, option_map cache (get_node t' (p ++ r))
                      = option_map (fun _ => []) (get_node t (p ++ r)))
        /\ (forall q, option_map _tf_session (get_node t' q)
                      = option_map _tf_session (get_node t q))
        /\ (forall q, option_map _tf_session_target (get_node t' q)
                      = option_map _tf_session_target (get_node t q))
        /\ (forall q, q <> p ->
                      option_map _tf_device (get_node t' q)
                      = option_map _tf_device (get_node t q))
        /\ (forall q, (forall r, q <> p ++ r) ->
                      option_map cache (get_node t' q)
                      = option_map cache (get_node t q))
        /\ nodes t' = nodes t)
    /\ (exists t' w',
          assign_tf_session_target t p target w = Some (t', w')
          /\ fresh w' = fresh w
          /\ trace w' = trace w ++
                        match _tf_session n with
                        | Some s => map (fun q => SessionDeath (p ++ q)) (nodes n)
                                    ++ [SessionClosed s]
                        | None => []
                        end
          /\ (exists n', get_node t' p = Some n'
                         /\ _tf_session_target n' = target
                         /\ _tf_session n' = None)
          /\ (forall q, option_map cache (get_node t' q)
                        = option_map cache (get_node t q))
          /\ (forall q, option_map _tf_device (get_node t' q)
                        = option_map _tf_device (get_node t q))
          /\ (forall q, q <> p ->
                        option_map _tf_session_target (get_node t' q)
                        = option_map _tf_session_target (get_node t q))
          /\ (forall q, q <> p ->
                        option_map _tf_session (get_node t' q)
                        = option_map _tf_session (get_node t q))
          /\ nodes t' = nodes t).
Proof.
  intros t n p device target w Hn. split.
  - apply assign_tf_device_effect with (n := n). exact Hn.
  - apply assign_tf_session_target_effect. exact Hn.
Qed.

(** ** Attaching a node under a new parent *)

(** C8. [b] is a root that has made its session [s]; [a] is a root whose
    directive is the worker job.  After [a.child = b] the placement of [b]
    is resolved through [a], and a session asked of [b] is the one of [a],
    another object than [s]; but the assignment ran no death hook and
    closed no session, and [b] still stores [s]. *)
Theorem reparenting_keeps_stale_session :
  forall engine : Engine,
  let w0 := {| fresh := 0; trace := [] |} in
  let worker := Some (DeviceSpec "/job:worker") in
  exists s b w1 a0 a w2 s2 a2 w3,
    get_session engine __init__ [] w0 = Some (Done (Some s, b, w1))
    /\ tf_device_setter [] __init__ worker w1 = (a0, w1)
    /\ __setattr__ [] a0 "child" b w1 = (a, w2)
    /\ op_placement_context a [0] = Some [EnterDevice (DeviceSpec "/job:worker")]
    /\ get_session engine a [0] w2 = Some (Done (Some s2, a2, w3))
    /\ s2 <> s
    /\ w2 = w1
    /\ (exists b', get_node a [0] = Some b' /\ _tf_session b' = Some s)
    /\ (exists b', get_node a2 [0] = Some b' /\ _tf_session b' = Some s).
Proof.
  intros engine. cbv zeta. do 9 eexists.
  split; [reflexivity|]. split; [reflexivity|]. split; [reflexivity|].
  split; [reflexivity|]. split; [reflexivity|].
  split; [discriminate|]. split; [reflexivity|].
  split; eexists; split; reflexivity.
Qed.

(** ** The theorems at concrete inputs *)

Lemma has_kind_fill :
  forall (n c : nat) (v : R) (dt : DType),
    has_kind dt n c (fill (n, c) (constant v dt)).
Proof.
  intros n c v dt. unfold has_kind, fill, constant, nrows, well_shaped.
  cbn [dtype ncols rows fst snd scalar_dtype scalar_value].
  repeat split.
  - apply repeat_length.
  - apply Forall_repeat. apply repeat_length.
Qed.

Lemma stub_expert_contract : expert_contract float64 Examples.stub_expert.
Proof.
  split.
  - intros pts L w. do 3 eexists. split; [reflexivity|].
    split; apply has_kind_fill.
  - intros X Y pts w w' mu var H. cbn in H. inversion H; subst.
    split; apply has_kind_fill.
Qed.

Lemma equal_weights_two_sum_to_one :
  forall (e1 e2 : GPModel nat) (X Y : Tensor) (w0 w1 : nat) (weight : list Tensor),
    equal_weights [e1; e2] X Y (Examples.full 1 1 0) w0 = (w1, Ok weight) ->
    weights_sum_to_one weight.
Proof.
  intros e1 e2 X Y w0 w1 weight H. rewrite equal_weights_value in H.
  injection H as _ <-. split.
  - repeat (constructor; [apply (has_kind_fill 1 1 _ float64)|]). constructor.
  - intros packed Hp. cbv -[Rplus Rminus Rmult Rdiv Rinv INR] in Hp.
    injection Hp as <-. cbv -[Rplus Rminus Rmult Rdiv Rinv INR].
    repeat constructor. simpl INR. field.
Qed.

(** Two experts of variance 1 with equal weights: rBCM and gPoE return,
    and the joint variance is 1. *)
Example rBCM_two_stub_experts :
  exists calls mu var,
    call_posterior
      (rBCMReduction [Examples.stub_expert; Examples.stub_expert] equal_weights)
      (Examples.full 2 1 0) (Examples.full 2 1 0) (Examples.full 1 1 0)
      (Some false) 0
    = (calls, Ok (mu, var))
    /\ entry var 0 0 = 1%R.
Proof.
  do 3 eexists. split.
  - unfold call_posterior, call_posterior_method.
    cbv -[Rplus Rminus Rmult Rdiv Rinv INR]. reflexivity.
  - cbv -[Rplus Rminus Rmult Rdiv Rinv INR]. simpl INR. field.
Qed.

Lemma rBCM_is_gPoE_witness :
  let children := [Examples.stub_expert; Examples.stub_expert] in
  let X := Examples.full 2 1 0 in
  let Y := Examples.full 2 1 0 in
  let test_points := Examples.full 1 1 0 in
  Forall (expert_contract float64) children
  /\ (forall w0 w1 weight,
         equal_weights children X Y test_points w0 = (w1, Ok weight) ->
         weights_sum_to_one weight)
  /\ (forall w0 w1 prior_mean prior_var,
         call_prior (rBCMReduction children equal_weights)
           test_points (Some (ncols Y)) None w0
         = (w1, Ok (prior_mean, prior_var)) ->
         all_entries (fun v => v <> 0%R) prior_var)
  /\ snd (call_posterior (rBCMReduction children equal_weights)
            X Y test_points (Some false) 0)
     = snd (call_posterior (gPoEReduction children equal_weights)
              X Y test_points (Some false) 0).
Proof.
  intros children X Y test_points.
  assert (H1 : Forall (expert_contract float64) children)
    by (constructor; [apply stub_expert_contract|];
        constructor; [apply stub_expert_contract|constructor]).
  assert (H2 : forall w0 w1 weight,
             equal_weights children X Y test_points w0 = (w1, Ok weight) ->
             weights_sum_to_one weight)
    by (intros w0 w1 weight; apply equal_weights_two_sum_to_one).
  assert (H3 : forall w0 w1 prior_mean prior_var,
             call_prior (rBCMReduction children equal_weights)
               test_points (Some (ncols Y)) None w0
             = (w1, Ok (prior_mean, prior_var)) ->
             all_entries (fun v => v <> 0%R) prior_var).
  { intros w0 w1 pm pv H.
    cbv -[Rplus Rminus Rmult Rdiv Rinv INR] in H. injection H as _ _ <-.
    cbv -[Rplus Rminus Rmult Rdiv Rinv INR not]. simpl INR.
    repeat constructor. lra. }
  split; [exact H1|]. split; [exact H2|]. split; [exact H3|].
  exact (@rBCM_is_gPoE_when_weights_sum_to_one nat float64 children
           equal_weights X Y test_points 0 H1 H2 H3).
Defined.

Lemma stub_expert_positive_variances :
  forall X Y points : Tensor,
    positive_variances_at X Y points float64 Examples.stub_expert.
Proof.
  intros X Y points. split; intros w; do 3 eexists;
    (split; [reflexivity|]);
    (split; [apply has_kind_fill|]);
    unfold all_entries, fill, constant;
    cbn [rows scalar_value fst snd];
    apply Forall_repeat, Forall_repeat; lra.
Qed.

Lemma cao_fleet_weights_floored_witness :
  let X := Examples.full 2 1 0 in
  let Y := Examples.full 2 1 0 in
  let points := Examples.full 1 1 0 in
  let experts := [Examples.stub_expert; Examples.stub_expert] in
  Forall (positive_variances_at X Y points float64) experts
  /\ exists w' first second,
       cao_fleet_weights experts X Y points 0 = (w', Ok [first; second])
       /\ entry first 0 0 = float64_eps
       /\ entry second 0 0 = float64_eps.
Proof.
  intros X Y points experts.
  assert (H : Forall (positive_variances_at X Y points float64) experts)
    by (repeat (constructor; [apply stub_expert_positive_variances|]);
        constructor).
  split; [exact H|].
  destruct (@cao_fleet_weights_floored nat float64 experts X Y points 0 H)
    as [w' [weights [Hws [Hlen Hk]]]].
  destruct weights as [|first [|second [|third weights]]]; try discriminate.
  exists w', first, second. split; [exact Hws|].
  assert (Hi : 0 < nrows points) by (cbn; lia).
  assert (Hj : 0 < ncols Y) by (cbn; lia).
  split.
  - destruct (Hk 0 Examples.stub_expert eq_refl)
      as [wk [w1 [w2 [pm [pv [qm [qv [weight [H1 [H2 [Hn [_ He]]]]]]]]]]]].
    injection Hn as <-.
    destruct (He 0 0 Hi Hj) as [_ [_ [_ [_ [_ [Heq _]]]]]].
    apply Heq. revert H1 H2. cbv [call_prior call_posterior call_prior_method
      call_posterior_method Examples.stub_expert build_prior_mean_var
      build_posterior_mean_var ret]. intros H1 H2.
    injection H1 as _ _ <-. injection H2 as _ _ <-. reflexivity.
  - destruct (Hk 1 Examples.stub_expert eq_refl)
      as [wk [w1 [w2 [pm [pv [qm [qv [weight [H1 [H2 [Hn [_ He]]]]]]]]]]]].
    injection Hn as <-.
    destruct (He 0 0 Hi Hj) as [_ [_ [_ [_ [_ [Heq _]]]]]].
    apply Heq. revert H1 H2. cbv [call_prior call_posterior call_prior_method
      call_posterior_method Examples.stub_expert build_prior_mean_var
      build_posterior_mean_var ret]. intros H1 H2.
    injection H1 as _ _ <-. injection H2 as _ _ <-. reflexivity.
Defined.

Lemma get_chunks_partitions_witness :
  let children := [Examples.stub_expert; Examples.stub_expert] in
  let X := Examples.full 4 1 0 in
  let Y := Examples.full 4 2 0 in
  children <> []
  /\ nrows Y = nrows X
  /\ nrows X mod length children = 0
  /\ exists chunks,
       _get_chunks children X Y 0 = (0, Ok chunks)
       /\ length chunks = 2
       /\ concat0 (map (fun c => snd (fst c)) chunks) = Ok X
       /\ concat0 (map snd chunks) = Ok Y.
Proof.
  intros children X Y.
  assert (H1 : children <> []) by discriminate.
  assert (H2 : nrows Y = nrows X) by reflexivity.
  assert (H3 : nrows X mod length children = 0) by reflexivity.
  split; [exact H1|]. split; [exact H2|]. split; [exact H3|].
  destruct (@get_chunks_partitions nat children X Y 0 H1 H2 H3)
    as [chunks [Hrun [Hlen [_ [_ [HX HY]]]]]].
  exists chunks. repeat split; assumption.
Defined.



Lemma setters_change_only_their_own_witness :
  let leaf := {| _tf_device := None; _tf_session_target := None;
                 _tf_session := None; cache := [("op"%string, 7)];
                 children := [] |} in
  let t := {| _tf_device := None; _tf_session_target := None;
              _tf_session := Some {| session_id := 0; session_args := None |};
              cache := [("op"%string, 3)];
              children := [("child"%string, leaf)] |} in
  let w := {| fresh := 1; trace := [] |} in
  get_node t [0] = Some leaf
  /\ (exists t', assign_tf_device t [0] (Some NO_DEVICE) w = Some (t', w)
                 /\ option_map _tf_session (get_node t' [])
                    = option_map _tf_session (get_node t [])
                 /\ option_map cache (get_node t' [])
                    = option_map cache (get_node t []))
  /\ (exists t' w', assign_tf_session_target t [0] None w = Some (t', w')
                    /\ trace w' = trace w
                    /\ option_map cache (get_node t' [0])
                       = option_map cache (get_node t [0])).
Proof.
  intros leaf t w.
  assert (H : get_node t [0] = Some leaf) by reflexivity.
  split; [exact H|].
  destruct (@setters_change_only_their_own t leaf [0] (Some NO_DEVICE) None w H)
    as [[t' [Hd [_ [_ [Hs [_ [_ [Hc _]]]]]]]]
        [t'' [w'' [Ht [_ [Htr [_ [Hc' _]]]]]]]].
  split.
  - exists t'. split; [exact Hd|]. split; [apply Hs|].
    apply Hc. intros r. discriminate.
  - exists t'', w''. split; [exact Ht|]. split; [|apply Hc'].
    rewrite Htr. reflexivity.
Defined.

(** * Further properties of the reductions *)

(** ** Training data that cannot be split *)

Lemma split0_uneven :
  forall (num_split : nat) (t : Tensor),
    num_split = 0 \/ nrows t mod num_split <> 0 ->
    split0 num_split t = Raise ValueError.
Proof.
  intros num_split t H. unfold split0.
  destruct num_split as [|m] eqn:E; [reflexivity|]. rewrite <- E in *.
  destruct H as [H|H]; [lia|].
  apply Nat.eqb_neq in H. now rewrite H.
Qed.

Lemma split0_cases :
  forall (num_split : nat) (t : Tensor),
    (exists ts, split0 num_split t = Ok ts) \/ split0 num_split t = Raise ValueError.
Proof.
  intros num_split t. unfold split0. destruct num_split as [|m]; [now right|].
  destruct (nrows t mod S m =? 0); [left; eexists; reflexivity|now right].
Qed.

Lemma get_chunks_uneven :
  forall (W : Type) (children : list (GPModel W)) (X Y : Tensor) (w : W),
    length children = 0
    \/ nrows X mod length children <> 0
    \/ nrows Y mod length children <> 0 ->
    _get_chunks children X Y w = (w, Raise ValueError).
Proof.
  intros W children X Y w H. unfold _get_chunks, bind, lift.
  destruct H as [H|[H|H]].
  - rewrite (@split0_uneven (length children) X) by (now left). reflexivity.
  - rewrite (@split0_uneven (length children) X) by (now right). reflexivity.
  - destruct (split0_cases (length children) X) as [[Xs EX]|EX];
      rewrite EX; [|reflexivity].
    rewrite (@split0_uneven (length children) Y) by (now right). reflexivity.
Qed.

(** The comprehension of PoE over its own zip is the one over
    [_get_chunks]. *)
Lemma PoE_posterior_unfold :
  forall (W : Type) (children : list (GPModel W)) (X Y test_points : Tensor)
         (w : W),
    PoE_build_posterior_mean_var children X Y test_points false w
    = (chunks <- _get_chunks children X Y ;;
       posts <- child_posteriors chunks test_points false ;;
       '(mu, var) <- lift (unzip_star posts) ;;
       mu <- lift (pack0 mu) ;;
       var <- lift (pack0 var) ;;
       let joint_var := tmap (Rdiv 1) (reduce_sum0 (smap (Rdiv 1) var)) in
       mu_over_var <- lift (sbin Rdiv mu var) ;;
       joint_mu <- lift (tbin Rmult joint_var (reduce_sum0 mu_over_var)) ;;
       ret (joint_mu, joint_var)) w.
Proof.
  intros W cs X Y pts w.
  unfold PoE_build_posterior_mean_var, _get_chunks, bind, lift, ret.
  destruct (split0 (length cs) X); [|reflexivity].
  destruct (split0 (length cs) Y); reflexivity.
Qed.

(** X1. When there is no child, or the number of rows of [X] or of [Y] is not
    a multiple of the number of children, the posterior of PoE, gPoE, BCM
    and rBCM raises [ValueError]; the world is unchanged, no child and no
    weight function was called. *)
Theorem posterior_needs_even_split :
  forall (W : Type) (children : list (GPModel W)) (weightfunction : WeightFunction)
         (X Y test_points : Tensor) (w : W),
    length children = 0
    \/ nrows X mod length children <> 0
    \/ nrows Y mod length children <> 0 ->
    call_posterior (PoEReduction children) X Y test_points (Some false) w
      = (w, Raise ValueError)
    /\ call_posterior (gPoEReduction children weightfunction) X Y test_points
         (Some false) w = (w, Raise ValueError)
    /\ call_posterior (BCMReduction children) X Y test_points (Some false) w
         = (w, Raise ValueError)
    /\ call_posterior (rBCMReduction children weightfunction) X Y test_points
         (Some false) w = (w, Raise ValueError).
Proof.
  intros W children wf X Y pts w H.
  pose proof (get_chunks_uneven children X Y w H) as Hch.
  unfold call_posterior, call_posterior_method.
  cbn [build_posterior_mean_var PoEReduction gPoEReduction BCMReduction
       rBCMReduction].
  rewrite PoE_posterior_unfold.
  unfold gPoE_build_posterior_mean_var, BCM_build_posterior_mean_var,
    rBCM_build_posterior_mean_var, bind.
  rewrite Hch. repeat split.
Qed.

Lemma posterior_needs_even_split_witness :
  let children := [Examples.stub_expert; Examples.stub_expert] in
  let X := Examples.full 3 1 0 in
  (length children = 0 \/ nrows X mod length children <> 0
   \/ nrows X mod length children <> 0)
  /\ call_posterior (BCMReduction children) X X (Examples.full 1 1 0)
       (Some false) 0 = (0, Raise ValueError).
Proof.
  intros children X.
  assert (H : length children = 0 \/ nrows X mod length children <> 0
              \/ nrows X mod length children <> 0)
    by (right; left; discriminate).
  split; [exact H|].
  exact (proj1 (proj2 (proj2
           (@posterior_needs_even_split nat children equal_weights X X
              (Examples.full 1 1 0) 0 H)))).
Defined.

(** ** Weights that are one column per expert *)

Lemma map2_repeat_column :
  forall (a b : R) (n : nat),
    map2 (map2 Rplus) (repeat [a] n) (repeat [b] n) = repeat [(a + b)%R] n.
Proof.
  intros a b n. induction n as [|n IH]; simpl; [reflexivity|]. now rewrite IH.
Qed.

Lemma fold_repeat_column :
  forall (c z : R) (n m : nat),
    fold_right (map2 (map2 Rplus)) (repeat [z] n) (repeat (repeat [c] n) m)
    = repeat [fold_right Rplus z (repeat c m)] n.
Proof.
  intros c z n m. induction m as [|m IH]; simpl; [reflexivity|].
  rewrite IH. apply map2_repeat_column.
Qed.

Lemma sum_repeat :
  forall (c : R) (m : nat), fold_right Rplus 0%R (repeat c m) = (INR m * c)%R.
Proof.
  intros c m. induction m as [|m IH].
  - simpl. lra.
  - rewrite S_INR. cbn [repeat fold_right]. rewrite IH. lra.
Qed.

Lemma map_rows_repeat :
  forall (t : Tensor) (m : nat), map rows (repeat t m) = repeat (rows t) m.
Proof.
  intros t m. induction m as [|m IH]; simpl; [reflexivity|]. now rewrite IH.
Qed.

Lemma same_kind_refl : forall t, same_kind t t = true.
Proof.
  intros t. unfold same_kind. rewrite !Nat.eqb_refl.
  replace (dtype_eqb (dtype t) (dtype t)) with true
    by (symmetry; now apply dtype_eqb_eq).
  reflexivity.
Qed.

Lemma pack0_repeat :
  forall (t : Tensor) (m : nat),
    pack0 (repeat t (S m))
    = Ok {| sdtype := dtype t; srows := nrows t; scols := ncols t;
            slices := repeat (rows t) (S m) |}.
Proof.
  intros t m. unfold pack0. cbn [repeat].
  replace (forallb (same_kind t) (repeat t m)) with true.
  - rewrite <- map_rows_repeat. reflexivity.
  - symmetry. apply forallb_forall. intros u Hu.
    apply repeat_spec in Hu. subst. apply same_kind_refl.
Qed.

(** ** ones_weights *)

Lemma map2_repeat_l :
  forall (A B C : Type) (f : A -> B -> C) (a : A) (l : list B),
    map2 f (repeat a (length l)) l = map (f a) l.
Proof.
  intros A B C f a l. induction l as [|b l IH]; simpl; [reflexivity|].
  now rewrite IH.
Qed.

Lemma bcast_repeat_l :
  forall (A B C : Type) (f : A -> B -> C) (a : A) (l : list B),
    bcast f (repeat a (length l)) l = map (f a) l.
Proof.
  intros A B C f a l. destruct l as [|b [|b' l]]; try reflexivity.
  change (bcast f (repeat a (length (b :: b' :: l))) (b :: b' :: l))
    with (map2 f (repeat a (length (b :: b' :: l))) (b :: b' :: l)).
  apply map2_repeat_l.
Qed.

Lemma bdim_1_l : forall c, bdim 1 c = Some c.
Proof.
  intros c. unfold bdim. destruct (1 =? c) eqn:E; [|reflexivity].
  apply Nat.eqb_eq in E. now subst.
Qed.

(** A column broadcast against a matrix with as many rows combines its
    entry with every entry of the matrix. *)
Lemma bcast2_column_l :
  forall (f : R -> R -> R) (c : R) (n L : nat) (A : list (list R)),
    mat n L A ->
    bcast (bcast f) (repeat [c] n) A = map (map (f c)) A.
Proof.
  intros f c n L A [Hn _]. rewrite <- Hn, bcast_repeat_l. reflexivity.
Qed.

Lemma smap_id :
  forall (f : R -> R) (s : Stack), (forall x, f x = x) -> smap f s = s.
Proof.
  intros f [dt r c sl] Hf. unfold smap. cbn. f_equal.
  rewrite <- (map_id sl) at 2. apply map_ext. intros A.
  rewrite <- (map_id A) at 2. apply map_ext. intros row.
  rewrite <- (map_id row) at 2. apply map_ext. exact Hf.
Qed.

(** A stack of [M] equal columns combined with a stack of [M] matrices. *)
Lemma sbin_columns_l :
  forall (f : R -> R -> R) (c : R) (s : Stack),
    Forall (mat (srows s) (scols s)) (slices s) ->
    sbin f {| sdtype := sdtype s; srows := srows s; scols := 1;
              slices := repeat (repeat [c] (srows s)) (length (slices s)) |} s
    = Ok (smap (f c) s).
Proof.
  intros f c [dt n L sl] Hm. cbn [sdtype srows scols slices] in *.
  unfold sbin. cbn [sdtype srows scols slices].
  replace (dtype_eqb dt dt) with true by (symmetry; now apply dtype_eqb_eq).
  rewrite repeat_length, !bdim_refl, bdim_1_l. cbn [negb].
  unfold smap. cbn [sdtype srows scols slices]. do 2 f_equal.
  rewrite bcast_repeat_l. apply map_ext_in. intros A HA.
  rewrite Forall_forall in Hm. eapply bcast2_column_l. apply Hm. exact HA.
Qed.

Lemma zip3_length :
  forall (A B C : Type) (la : list A) (lb : list B) (lc : list C),
    length lb = length la -> length lc = length la ->
    length (zip3 la lb lc) = length la.
Proof.
  induction la as [|a la IH]; intros [|b lb] [|c lc] Hb Hc;
    simpl in *; try lia. f_equal. apply IH; lia.
Qed.

Lemma split0_length :
  forall (num_split : nat) (t : Tensor) (ts : list Tensor),
    split0 num_split t = Ok ts -> length ts = num_split.
Proof.
  intros num_split t ts H. unfold split0 in H.
  destruct num_split as [|m] eqn:E; [discriminate|]. rewrite <- E in *.
  destruct (nrows t mod num_split =? 0); [|discriminate].
  injection H as <-. rewrite length_map. apply chunks_length.
Qed.

Lemma get_chunks_length :
  forall (W : Type) (cs : list (GPModel W)) (X Y : Tensor) (w w' : W)
         (chunks : list (GPModel W * Tensor * Tensor)),
    _get_chunks cs X Y w = (w', Ok chunks) ->
    w' = w /\ length chunks = length cs.
Proof.
  intros W cs X Y w w' chunks H. unfold _get_chunks, bind, lift, ret in H.
  destruct (split0 (length cs) X) as [Xs|] eqn:EX; [|discriminate].
  destruct (split0 (length cs) Y) as [Ys|] eqn:EY; [|discriminate].
  injection H as <- <-. split; [reflexivity|].
  apply zip3_length; eapply split0_length; eassumption.
Qed.

Lemma child_posteriors_kind_mu :
  forall (W : Type) (dt : DType) (cs : list (GPModel W))
         (chunks : list (GPModel W * Tensor * Tensor))
         (Y test_points : Tensor) (w w' : W) (posts : list (Tensor * Tensor)),
    Forall (expert_contract dt) cs ->
    Forall (fun c => In (fst (fst c)) cs /\ ncols (snd c) = ncols Y) chunks ->
    child_posteriors chunks test_points false w = (w', Ok posts) ->
    Forall (has_kind dt (nrows test_points) (ncols Y)) (map fst posts).
Proof.
  intros W dt cs chunks Y pts w w' posts Hc Hch H.
  unfold child_posteriors in H.
  assert (Hp : Forall (fun mv => has_kind dt (nrows pts) (ncols Y) (fst mv)) posts).
  { eapply mapM_Forall_In; [|exact H].
    intros [[child Xk] Yk] w0 w1 [mu var] Hin Hcall.
    rewrite Forall_forall in Hch, Hc.
    destruct (Hch _ Hin) as [Hchild HYk]. cbn [fst snd] in *.
    destruct (Hc child Hchild) as [_ Hpost].
    destruct (Hpost Xk Yk pts w0 w1 mu var Hcall) as [Hmu _].
    now rewrite <- HYk. }
  rewrite Forall_forall in *. intros t Ht. apply in_map_iff in Ht.
  destruct Ht as [mv [<- Hmv]]. auto.
Qed.

Lemma child_posteriors_length :
  forall (W : Type) (chunks : list (GPModel W * Tensor * Tensor))
         (test_points : Tensor) (fc : bool) (w w' : W)
         (posts : list (Tensor * Tensor)),
    child_posteriors chunks test_points fc w = (w', Ok posts) ->
    length posts = length chunks.
Proof.
  intros. eapply mapM_length. eassumption.
Qed.

Lemma unzip_star_Ok :
  forall (A B : Type) (ps : list (A * B)) (la : list A) (lb : list B),
    unzip_star ps = Ok (la, lb) -> la = map fst ps /\ lb = map snd ps.
Proof.
  intros A B [|p ps] la lb H; [discriminate|].
  unfold unzip_star in H. injection H as <- <-. split; reflexivity.
Qed.

Lemma pack0_slices :
  forall (ts : list Tensor) (s : Stack),
    pack0 ts = Ok s -> slices s = map rows ts.
Proof.
  intros ts s H. destruct (pack0_Ok ts H) as [t [rest [-> [-> _]]]]. reflexivity.
Qed.

Lemma sbin_columns :
  forall (f : R -> R -> R) (c : R) (dt : DType) (n m : nat) (s : Stack),
    sdtype s = dt -> srows s = n -> length (slices s) = m ->
    Forall (mat n (scols s)) (slices s) ->
    sbin f {| sdtype := dt; srows := n; scols := 1;
              slices := repeat (repeat [c] n) m |} s
    = Ok (smap (f c) s).
Proof.
  intros f c dt n m s <- <- <- Hm. now apply sbin_columns_l.
Qed.

Lemma ones_packed :
  forall (points : Tensor) (m : nat),
    pack0 (repeat (ones (nrows points, 1) (dtype points)) (S m))
    = Ok {| sdtype := dtype points; srows := nrows points; scols := 1;
            slices := repeat (repeat [1%R] (nrows points)) (S m) |}.
Proof.
  intros points m. rewrite pack0_repeat.
  assert (Hn : nrows (ones (nrows points, 1) (dtype points)) = nrows points)
    by apply repeat_length.
  rewrite Hn. reflexivity.
Qed.

(** What the first steps of a posterior give when they succeed: stacks of
    means and of variances of the contract's dtype and shape, one slice
    per child, of which there is at least one. *)
Lemma posterior_prefix :
  forall (W : Type) (dt : DType) (cs : list (GPModel W)) (X Y pts : Tensor)
         (w w1 w2 : W) (chunks : list (GPModel W * Tensor * Tensor))
         (posts : list (Tensor * Tensor)) (mu var : list Tensor)
         (smu svar : Stack),
    Forall (expert_contract dt) cs ->
    _get_chunks cs X Y w = (w1, Ok chunks) ->
    child_posteriors chunks pts false w1 = (w2, Ok posts) ->
    unzip_star posts = Ok (mu, var) ->
    pack0 mu = Ok smu -> pack0 var = Ok svar ->
    (exists m, length cs = S m)
    /\ (sdtype smu = dt /\ srows smu = nrows pts /\ scols smu = ncols Y
        /\ Forall (mat (nrows pts) (ncols Y)) (slices smu)
        /\ length (slices smu) = length cs)
    /\ (sdtype svar = dt /\ srows svar = nrows pts /\ scols svar = ncols Y
        /\ Forall (mat (nrows pts) (ncols Y)) (slices svar)
        /\ length (slices svar) = length cs).
Proof.
  intros W dt cs X Y pts w w1 w2 chunks posts mu var smu svar
         Hc Ech Ep Eu Emu Evar.
  destruct (get_chunks_Ok _ _ _ _ Ech) as [Hne Hch].
  destruct (get_chunks_length _ _ _ _ Ech) as [_ Hlen].
  pose proof (child_posteriors_length _ _ _ _ Ep) as Hpl.
  destruct (unzip_star_Ok _ Eu) as [-> ->].
  pose proof (child_posteriors_kind_mu _ _ _ Hc Hch Ep) as Hmu.
  pose proof (child_posteriors_kind _ _ _ Hc Hch Ep) as Hvar.
  destruct (pack0_kind Emu Hmu) as [Hd1 [Hn1 [Hc1 Hm1]]].
  destruct (pack0_kind Evar Hvar) as [Hd2 [Hn2 [Hc2 Hm2]]].
  split; [|split].
  - destruct cs as [|e es]; [congruence|]. exists (length es). reflexivity.
  - repeat split; try assumption.
    rewrite (pack0_slices _ Emu), !length_map. congruence.
  - repeat split; try assumption.
    rewrite (pack0_slices _ Evar), !length_map. congruence.
Qed.

(** X4. With [ones_weights], children that meet the expert contract and query
    points of their dtype, gPoE is PoE: the call returns the same mean and
    variance or raises the same exception, and leaves the same world. *)
Theorem gPoE_ones_weights_is_PoE :
  forall (W : Type) (dt : DType) (children : list (GPModel W))
         (X Y test_points : Tensor) (full_cov : option bool) (w : W),
    Forall (expert_contract dt) children ->
    dtype test_points = dt ->
    call_posterior (gPoEReduction children ones_weights) X Y test_points
      full_cov w
    = call_posterior (PoEReduction children) X Y test_points full_cov w.
Proof.
  intros W dt cs X Y pts fc w Hc Hdt.
  unfold call_posterior, call_posterior_method.
  cbn [build_posterior_mean_var gPoEReduction PoEReduction].
  destruct (match fc with Some b => b | None => false end); [reflexivity|].
  rewrite PoE_posterior_unfold.
  unfold gPoE_build_posterior_mean_var, bind, lift.
  destruct (_get_chunks cs X Y w) as [w1 [chunks|e]] eqn:Ech; [|reflexivity].
  destruct (child_posteriors chunks pts false w1) as [w2 [posts|e]] eqn:Ep;
    [|reflexivity].
  destruct (unzip_star posts) as [[mu var]|e] eqn:Eu; [|reflexivity].
  rewrite ones_weights_value.
  destruct (pack0 mu) as [smu|e] eqn:Emu; [|reflexivity].
  destruct (pack0 var) as [svar|e] eqn:Evar; [|reflexivity].
  destruct (@posterior_prefix _ _ _ _ _ _ _ _ _ _ _ _ _ _ _ Hc Ech Ep Eu Emu Evar)
    as [[m Hm] [[Hd1 [Hn1 [Hc1 [Hm1 Hl1]]]] [Hd2 [Hn2 [Hc2 [Hm2 Hl2]]]]]].
  rewrite Hm, ones_packed.
  rewrite (@sbin_columns Rdiv 1 (dtype pts) (nrows pts) (S m) svar)
    by (first [congruence | now rewrite Hc2]).
  rewrite (@sbin_columns Rmult 1 (dtype pts) (nrows pts) (S m) smu)
    by (first [congruence | now rewrite Hc1]).
  rewrite (@smap_id (Rmult 1) smu) by (intros x; lra).
  reflexivity.
Qed.

Lemma gPoE_ones_weights_is_PoE_witness :
  let children := [Examples.stub_expert; Examples.stub_expert] in
  let X := Examples.full 4 1 0 in
  let test_points := Examples.full 3 1 0 in
  Forall (expert_contract float64) children
  /\ dtype test_points = float64
  /\ call_posterior (gPoEReduction children ones_weights) X X test_points
       (Some false) 0
     = call_posterior (PoEReduction children) X X test_points (Some false) 0.
Proof.
  intros children X test_points.
  assert (H : Forall (expert_contract float64) children)
    by (repeat (constructor; [apply stub_expert_contract|]); constructor).
  split; [exact H|]. split; [reflexivity|].
  exact (@gPoE_ones_weights_is_PoE nat float64 children X X test_points
           (Some false) 0 H eq_refl).
Defined.

Lemma map_repeat :
  forall (A B : Type) (f : A -> B) (a : A) (n : nat),
    map f (repeat a n) = repeat (f a) n.
Proof.
  intros A B f a n. induction n as [|n IH]; simpl; [reflexivity|]. now rewrite IH.
Qed.

(** With a weight of 1 for each of [M] experts the correction of rBCM is
    [(1 - M) / prior_var]. *)
Lemma ones_correction :
  forall (dt : DType) (n L m : nat) (prior_var : Tensor),
    has_kind dt n L prior_var ->
    tbin Rdiv
      (tmap (Rminus 1)
         (reduce_sum0 {| sdtype := dt; srows := n; scols := 1;
                         slices := repeat (repeat [1%R] n) (S m) |}))
      prior_var
    = Ok (tmap (Rdiv (1 - INR (S m))) prior_var).
Proof.
  intros dt n L m pv [Hd [Hn [HL Hw]]].
  assert (HP : mat n L (rows pv)).
  { rewrite <- Hn, <- HL. now apply well_shaped_mat. }
  assert (Hsum : rows (reduce_sum0 {| sdtype := dt; srows := n; scols := 1;
                         slices := repeat (repeat [1%R] n) (S m) |})
                 = repeat [INR (S m)] n).
  { unfold reduce_sum0. cbn [rows sdtype srows scols slices].
    change (repeat 0%R 1) with [0%R].
    rewrite fold_repeat_column, sum_repeat, Rmult_1_r. reflexivity. }
  rewrite (@tbin_Ok_intro Rdiv _ pv n L).
  - unfold tmap at 1 2. cbn [dtype ncols rows]. rewrite Hsum.
    rewrite !map_repeat. cbn [map].
    rewrite (bcast2_column_l Rdiv (1 - INR (S m)) HP).
    unfold tmap. cbn [dtype reduce_sum0 sdtype]. rewrite Hd, HL. reflexivity.
  - cbn [dtype tmap reduce_sum0 sdtype]. exact Hd.
  - unfold nrows at 1. cbn [tmap rows]. rewrite Hsum, !map_repeat.
    rewrite repeat_length, Hn. apply bdim_refl.
  - cbn [ncols tmap reduce_sum0 scols]. rewrite HL. apply bdim_1_l.
Qed.

(** X5. With [ones_weights], children that meet the expert contract and query
    points of their dtype, rBCM is BCM: the call returns the same mean and
    variance or raises the same exception, and leaves the same world. *)
Theorem rBCM_ones_weights_is_BCM :
  forall (W : Type) (dt : DType) (children : list (GPModel W))
         (X Y test_points : Tensor) (full_cov : option bool) (w : W),
    Forall (expert_contract dt) children ->
    dtype test_points = dt ->
    call_posterior (rBCMReduction children ones_weights) X Y test_points
      full_cov w
    = call_posterior (BCMReduction children) X Y test_points full_cov w.
Proof.
  intros W dt cs X Y pts fc w Hc Hdt.
  unfold call_posterior, call_posterior_method.
  cbn [build_posterior_mean_var rBCMReduction BCMReduction].
  destruct (match fc with Some b => b | None => false end); [reflexivity|].
  unfold rBCM_build_posterior_mean_var, BCM_build_posterior_mean_var, bind, lift.
  destruct (_get_chunks cs X Y w) as [w1 [chunks|e]] eqn:Ech; [|reflexivity].
  destruct (child_posteriors chunks pts false w1) as [w2 [posts|e]] eqn:Ep;
    [|reflexivity].
  destruct (unzip_star posts) as [[mu var]|e] eqn:Eu; [|reflexivity].
  rewrite ones_weights_value.
  destruct (pack0 mu) as [smu|e] eqn:Emu; [|reflexivity].
  destruct (pack0 var) as [svar|e] eqn:Evar; [|reflexivity].
  destruct (@posterior_prefix _ _ _ _ _ _ _ _ _ _ _ _ _ _ _ Hc Ech Ep Eu Emu Evar)
    as [[m Hm] [[Hd1 [Hn1 [Hc1 [Hm1 Hl1]]]] [Hd2 [Hn2 [Hc2 [Hm2 Hl2]]]]]].
  rewrite Hm, ones_packed.
  assert (Hne : cs <> []) by (intros ->; discriminate).
  destruct (@Reduction_prior_total W dt cs pts (snd (shape Y)) w2 Hne Hc)
    as [w4 [pm [pv [Hprior [_ Hpv]]]]].
  unfold call_prior_method. rewrite Hprior. cbn [snd].
  rewrite (@sbin_columns Rdiv 1 (dtype pts) (nrows pts) (S m) svar)
    by (first [congruence | now rewrite Hc2]).
  rewrite Hdt. rewrite (@ones_correction dt (nrows pts) (snd (shape Y)) m pv Hpv).
  rewrite <- Hdt.
  rewrite (@sbin_columns Rmult 1 (dtype pts) (nrows pts) (S m) smu)
    by (first [congruence | now rewrite Hc1]).
  rewrite (@smap_id (Rmult 1) smu) by (intros x; lra).
  reflexivity.
Qed.

Lemma rBCM_ones_weights_is_BCM_witness :
  let children := [Examples.stub_expert; Examples.stub_expert] in
  let X := Examples.full 4 1 0 in
  let test_points := Examples.full 3 1 0 in
  Forall (expert_contract float64) children
  /\ dtype test_points = float64
  /\ call_posterior (rBCMReduction children ones_weights) X X test_points
       (Some false) 0
     = call_posterior (BCMReduction children) X X test_points (Some false) 0.
Proof.
  intros children X test_points.
  assert (H : Forall (expert_contract float64) children)
    by (repeat (constructor; [apply stub_expert_contract|]); constructor).
  split; [exact H|]. split; [reflexivity|].
  exact (@rBCM_ones_weights_is_BCM nat float64 children X X test_points
           (Some false) 0 H eq_refl).
Defined.

(** ** Reductions as experts *)

Lemma tmap_kind :
  forall (dt : DType) (n L : nat) (f : R -> R) (t : Tensor),
    has_kind dt n L t -> has_kind dt n L (tmap f t).
Proof.
  intros dt n L f t [Hd [Hn [HL Hw]]].
  assert (Hm : mat n L (rows t)) by (rewrite <- Hn, <- HL; now apply well_shaped_mat).
  destruct (map_map_mat f Hm) as [H1 H2].
  unfold has_kind. repeat split; try assumption.
  unfold well_shaped. cbn [tmap rows ncols]. now rewrite HL.
Qed.

Lemma reduce_sum0_kind :
  forall (dt : DType) (n L : nat) (s : Stack),
    sdtype s = dt -> srows s = n -> scols s = L ->
    Forall (mat n L) (slices s) -> has_kind dt n L (reduce_sum0 s).
Proof.
  intros dt n L s <- <- <- Hm.
  destruct (reduce_sum0_mat s Hm) as [H1 H2].
  unfold has_kind. repeat split; assumption.
Qed.

Lemma smap_mat :
  forall (f : R -> R) (n L : nat) (s : Stack),
    Forall (mat n L) (slices s) -> Forall (mat n L) (slices (smap f s)).
Proof.
  intros f n L s H. cbn [smap slices]. rewrite Forall_forall in *.
  intros A HA. apply in_map_iff in HA. destruct HA as [A0 [<- HA0]].
  apply map_map_mat. auto.
Qed.

Lemma tbin_Ok_kind :
  forall (dt : DType) (n L : nat) (f : R -> R -> R) (a b c : Tensor),
    has_kind dt n L a -> has_kind dt n L b -> tbin f a b = Ok c ->
    has_kind dt n L c.
Proof.
  intros dt n L f a b c [Hda [Hna [HLa Hwa]]] [Hdb [Hnb [HLb Hwb]]] H.
  rewrite tbin_same_shape in H by (unfold shape; congruence).
  injection H as <-.
  assert (HA : mat n L (rows a)) by (rewrite <- Hna, <- HLa; now apply well_shaped_mat).
  assert (HB : mat n L (rows b)) by (rewrite <- Hnb, <- HLb; now apply well_shaped_mat).
  destruct (@bcast2_mat f n L n L n L (rows a) (rows b) HA HB
              (bdim_refl n) (bdim_refl L)) as [H1 H2].
  unfold has_kind, nrows, well_shaped. cbn [dtype ncols rows].
  rewrite HLa. repeat split; assumption.
Qed.

Lemma sbin_Ok_kind :
  forall (dt : DType) (n L : nat) (f : R -> R -> R) (a b q : Stack),
    sdtype a = dt -> srows a = n -> scols a = L -> Forall (mat n L) (slices a) ->
    srows b = n -> scols b = L -> Forall (mat n L) (slices b) ->
    sbin f a b = Ok q ->
    sdtype q = dt /\ srows q = n /\ scols q = L /\ Forall (mat n L) (slices q).
Proof.
  intros dt n L f a b q Hda Hna HLa Hma Hnb HLb Hmb H.
  destruct (sbin_Ok f a b H) as [_ [Hdq [Hr [Hc _]]]].
  rewrite Hna, Hnb, bdim_refl in Hr. rewrite HLa, HLb, bdim_refl in Hc.
  injection Hr as Hr. injection Hc as Hc.
  repeat split; try congruence.
  rewrite Hr, Hc. eapply sbin_mat; [exact H| |]; congruence.
Qed.

(** X6. A PoE or BCM reduction of at least one expert, all meeting the expert
    contract, meets the contract itself: its prior returns tensors of the
    contract's shape and so does its posterior when it returns.  Such a
    reduction can be a child of a reduction. *)
Theorem reductions_meet_the_expert_contract :
  forall (W : Type) (dt : DType) (children : list (GPModel W)),
    children <> [] ->
    Forall (expert_contract dt) children ->
    expert_contract dt (PoEReduction children)
    /\ expert_contract dt (BCMReduction children).
Proof.
  intros W dt cs Hne Hc. split; split.
  - intros pts L w. apply Reduction_prior_total; assumption.
  - intros X Y pts w w' jmu jvar H.
    cbn [build_posterior_mean_var PoEReduction] in H.
    rewrite PoE_posterior_unfold in H. unfold bind, lift, ret in H.
    destruct (_get_chunks cs X Y w) as [w1 [chunks|e]] eqn:Ech; [|discriminate].
    destruct (child_posteriors chunks pts false w1) as [w2 [posts|e]] eqn:Ep;
      [|discriminate].
    destruct (unzip_star posts) as [[mu var]|e] eqn:Eu; [|discriminate].
    destruct (pack0 mu) as [smu|e] eqn:Emu; [|discriminate].
    destruct (pack0 var) as [svar|e] eqn:Evar; [|discriminate].
    destruct (@posterior_prefix _ _ _ _ _ _ _ _ _ _ _ _ _ _ _ Hc Ech Ep Eu Emu Evar)
      as [_ [[Hd1 [Hn1 [Hc1 [Hm1 _]]]] [Hd2 [Hn2 [Hc2 [Hm2 _]]]]]].
    destruct (sbin Rdiv smu svar) as [q|e] eqn:Eq; [|discriminate].
    destruct (@sbin_Ok_kind dt (nrows pts) (ncols Y) Rdiv smu svar q
                Hd1 Hn1 Hc1 Hm1 Hn2 Hc2 Hm2 Eq)
      as [Hdq [Hnq [Hcq Hmq]]].
    assert (Hjv : has_kind dt (nrows pts) (ncols Y)
                    (tmap (Rdiv 1) (reduce_sum0 (smap (Rdiv 1) svar)))).
    { apply tmap_kind. apply reduce_sum0_kind; try assumption.
      now apply smap_mat. }
    destruct (tbin Rmult _ (reduce_sum0 q)) as [jm|e] eqn:Ej; [|discriminate].
    injection H as _ <- <-. split; [|exact Hjv].
    eapply tbin_Ok_kind; [exact Hjv| |exact Ej].
    now apply reduce_sum0_kind.
  - intros pts L w. apply Reduction_prior_total; assumption.
  - intros X Y pts w w' jmu jvar H.
    cbn [build_posterior_mean_var BCMReduction] in H.
    unfold BCM_build_posterior_mean_var, bind, lift, ret in H.
    destruct (_get_chunks cs X Y w) as [w1 [chunks|e]] eqn:Ech; [|discriminate].
    destruct (child_posteriors chunks pts false w1) as [w2 [posts|e]] eqn:Ep;
      [|discriminate].
    destruct (unzip_star posts) as [[mu var]|e] eqn:Eu; [|discriminate].
    destruct (pack0 mu) as [smu|e] eqn:Emu; [|discriminate].
    destruct (pack0 var) as [svar|e] eqn:Evar; [|discriminate].
    destruct (@posterior_prefix _ _ _ _ _ _ _ _ _ _ _ _ _ _ _ Hc Ech Ep Eu Emu Evar)
      as [_ [[Hd1 [Hn1 [Hc1 [Hm1 _]]]] [Hd2 [Hn2 [Hc2 [Hm2 _]]]]]].
    destruct (@Reduction_prior_total W dt cs pts (snd (shape Y)) w2 Hne Hc)
      as [w4 [pm [pv [Hprior [_ Hpv]]]]].
    unfold call_prior_method in H. rewrite Hprior in H. cbn [snd] in H.
    destruct (tbin Rplus _ _) as [prec|e] eqn:Eprec; [|discriminate].
    assert (Hprec : has_kind dt (nrows pts) (ncols Y) prec).
    { eapply tbin_Ok_kind; [| |exact Eprec].
      - apply reduce_sum0_kind; try assumption. now apply smap_mat.
      - apply tmap_kind. exact Hpv. }
    destruct (sbin Rdiv smu svar) as [q|e] eqn:Eq; [|discriminate].
    destruct (@sbin_Ok_kind dt (nrows pts) (ncols Y) Rdiv smu svar q
                Hd1 Hn1 Hc1 Hm1 Hn2 Hc2 Hm2 Eq)
      as [Hdq [Hnq [Hcq Hmq]]].
    destruct (tbin Rmult _ (reduce_sum0 q)) as [jm|e] eqn:Ej; [|discriminate].
    injection H as _ <- <-. split; [|now apply tmap_kind].
    eapply tbin_Ok_kind; [apply tmap_kind; exact Hprec| |exact Ej].
    now apply reduce_sum0_kind.
Qed.

Lemma reductions_meet_the_expert_contract_witness :
  let children := [Examples.stub_expert; Examples.stub_expert] in
  children <> []
  /\ Forall (expert_contract float64) children
  /\ expert_contract float64 (PoEReduction [PoEReduction children;
                                            BCMReduction children]).
Proof.
  intros children.
  assert (H0 : children <> []) by discriminate.
  assert (H : Forall (expert_contract float64) children)
    by (repeat (constructor; [apply stub_expert_contract|]); constructor).
  split; [exact H0|]. split; [exact H|].
  destruct (@reductions_meet_the_expert_contract nat float64 children H0 H)
    as [HP HB].
  assert (H0' : [PoEReduction children; BCMReduction children] <> [])
    by discriminate.
  exact (proj1 (@reductions_meet_the_expert_contract nat float64
                  [PoEReduction children; BCMReduction children] H0'
                  (Forall_cons _ HP (Forall_cons _ HB (Forall_nil _))))).
Defined.

(** ** A reduction of one expert *)

Lemma mat_ext :
  forall (n c : nat) (A B : list (list R)),
    mat n c A -> mat n c B ->
    (forall i j, i < n -> j < c ->
                 nth j (nth i A []) 0%R = nth j (nth i B []) 0%R) ->
    A = B.
Proof.
  intros n c A B [HA1 HA2] [HB1 HB2] H.
  apply (nth_ext A B (@nil R) (@nil R)); [congruence|].
  intros i Hi.
  apply (nth_ext _ _ 0%R 0%R).
  - rewrite (@Forall_nth_length A c i HA2) by assumption.
    rewrite (@Forall_nth_length B c i HB2) by congruence. reflexivity.
  - intros j Hj. rewrite (@Forall_nth_length A c i HA2) in Hj by assumption.
    apply H; [congruence|assumption].
Qed.

Lemma map2_add_zeros :
  forall (n c : nat) (A : list (list R)),
    mat n c A -> map2 (map2 Rplus) A (repeat (repeat 0%R c) n) = A.
Proof.
  intros n c A HA.
  rewrite <- (@bcast2_add_zeros n c A (repeat (repeat 0%R c) n) HA
                (repeat_mat n c 0)) at 2.
  - destruct HA as [HA1 HA2].
    rewrite bcast_same_length by (rewrite repeat_length; exact HA1).
    clear HA1. revert n.
    induction HA2 as [|r A Hr HA IH]; intros [|n]; try reflexivity.
    cbn [repeat map2]. f_equal; [|apply IH].
    rewrite bcast_same_length by (rewrite repeat_length; exact Hr). reflexivity.
  - apply Forall_repeat. apply Forall_repeat. reflexivity.
Qed.

(** * Further properties of the placement tree *)

(** ** One session for the tree *)

Lemma get_node_same_children :
  forall (t t' : WrappedTF) (q : path),
    children t' = children t -> get_node t q <> None -> get_node t' q <> None.
Proof.
  intros t t' [|i q] Hch H; [discriminate|].
  cbn [get_node] in *. now rewrite Hch.
Qed.

Lemma maybe_create_session_facts :
  forall (engine : Engine) (t t' : WrappedTF) (w w' : World),
    _maybe_create_session engine [] t w = Done (t', w') ->
    children t' = children t
    /\ _tf_session_target t' = _tf_session_target t
    /\ exists s, _tf_session t' = Some s.
Proof.
  intros engine t t' w w' H. unfold _maybe_create_session, new_session in H.
  destruct (_tf_session t) as [s|] eqn:Es.
  - injection H as <- <-. repeat split. eauto.
  - destruct (session_constructor engine (_tf_session_target t));
      [discriminate|].
    injection H as <- <-. repeat split. eexists; reflexivity.
Qed.

(** X10. Once [get_session] has returned on some node of a tree, it returns the
    same session on every node of the tree, and those calls change nothing:
    no session is made and no hook runs. *)
Theorem get_session_is_stable :
  forall (engine : Engine) (t : WrappedTF) (p q : path) (w : World)
         (s : option Session) (t' : WrappedTF) (w' : World),
    get_session engine t p w = Some (Done (s, t', w')) ->
    get_node t q <> None ->
    (exists session, s = Some session)
    /\ get_session engine t' q w' = Some (Done (s, t', w')).
Proof.
  intros engine t p q w s t' w' H Hq. unfold get_session in H.
  destruct (get_node t p); [|discriminate].
  destruct (_maybe_create_session engine [] t w) as [[t1 w1]|e] eqn:Ec;
    [|discriminate].
  injection H as <- <- <-.
  destruct (maybe_create_session_facts _ _ _ Ec) as [Hch [_ [session Hs]]].
  split; [exists session; exact Hs|].
  unfold get_session.
  destruct (get_node t1 q) eqn:Eq;
    [|exfalso; exact (get_node_same_children t t1 q Hch Hq Eq)].
  unfold _maybe_create_session. rewrite Hs. cbv iota. rewrite Hs. reflexivity.
Qed.

Lemma get_session_is_stable_witness :
  let engine : Engine := fun _ => true in
  let leaf := Wrapped.__init__ in
  let t := set_children Wrapped.__init__ [("child"%string, leaf)] in
  let w := {| fresh := 0; trace := [] |} in
  exists s t' w',
    get_session engine t [0] w = Some (Done (s, t', w'))
    /\ get_node t [] <> None
    /\ get_session engine t' [] w' = Some (Done (s, t', w')).
Proof.
  intros engine leaf t w.
  destruct (get_session engine t [0] w) as [[[[s t'] w']|e]|] eqn:E;
    [|discriminate|discriminate].
  assert (H : get_node t [] <> None) by discriminate.
  exists s, t', w'. split; [reflexivity|]. split; [exact H|].
  exact (proj2 (@get_session_is_stable engine t [0] [] w s t' w' E H)).
Defined.



(** X12. After a session target has been assigned to a node, assigning a
    target to that node again runs no hook and closes nothing: the tear
    down is done once until a session is made again. *)
Theorem second_target_assignment_is_silent :
  forall (t : WrappedTF) (p : path) (v1 v2 : option SessionTarget)
         (w : World) (t1 : WrappedTF) (w1 : World),
    assign_tf_session_target t p v1 w = Some (t1, w1) ->
    exists t2,
      assign_tf_session_target t1 p v2 w1 = Some (t2, w1)
      /\ (forall q, option_map _tf_session (get_node t2 q)
                    = option_map _tf_session (get_node t1 q))
      /\ exists n2, get_node t2 p = Some n2 /\ _tf_session_target n2 = v2.
Proof.
  intros t p v1 v2 w t1 w1 H.
  assert (Hn : exists n, get_node t p = Some n).
  { unfold assign_tf_session_target, on_node in H.
    destruct (get_node t p) as [n|]; [eauto|discriminate]. }
  destruct Hn as [n Hn].
  destruct (assign_tf_session_target_effect t p v1 w Hn)
    as [t1' [w1' [Ha [_ [_ [[n1 [Hn1 [_ Hs1]]] _]]]]]].
  rewrite H in Ha. injection Ha as <- <-.
  destruct (assign_tf_session_target_effect t1 p v2 w1 Hn1)
    as [t2 [w2 [Ha2 [Hf [Htr [[n2 [Hn2 [Ht2 Hs2]]] [_ [_ [_ [Hsess _]]]]]]]]]].
  rewrite Hs1, app_nil_r in Htr.
  assert (Hw : w2 = w1).
  { destruct w1, w2. cbn in *. congruence. }
  subst w2. exists t2. split; [exact Ha2|]. split.
  - intros q. destruct (list_eq_dec Nat.eq_dec q p) as [->|Hq].
    + rewrite Hn2, Hn1. cbn. congruence.
    + apply Hsess. exact Hq.
  - exists n2. split; assumption.
Qed.

Lemma second_target_assignment_is_silent_witness :
  let t := set_tf_session_field Wrapped.__init__
             (Some {| session_id := 0; session_args := None |}) in
  let w := {| fresh := 1; trace := [] |} in
  exists t1 w1 t2,
    assign_tf_session_target t [] (Some (TargetString "a")) w = Some (t1, w1)
    /\ assign_tf_session_target t1 [] (Some (TargetString "b")) w1
       = Some (t2, w1).
Proof.
  intros t w.
  destruct (assign_tf_session_target t [] (Some (TargetString "a")) w)
    as [[t1 w1]|] eqn:E; [|discriminate].
  destruct (@second_target_assignment_is_silent t [] (Some (TargetString "a"))
              (Some (TargetString "b")) w t1 w1 E) as [t2 [H _]].
  exists t1, w1, t2. split; [reflexivity|exact H].
Defined.

(** ** Placement through the tree *)

Import Placement.

(** X13. The contexts entered for a node are those entered for its parent, then
    the one of its own directive: nothing when the directive is unset, so
    that the node inherits; [tf.device(None)] for [NO_DEVICE]; and
    [tf.device(dev)] for any other directive. *)
Theorem placement_of_a_child :
  forall (t : WrappedTF) (p : path) (i : nat) (n : WrappedTF),
    get_node t (p ++ [i]) = Some n ->
    exists parent_context,
      op_placement_context t p = Some parent_context
      /\ op_placement_context t (p ++ [i])
         = Some (parent_context ++ own_device_context n)
      /\ (_tf_device n = None ->
          op_placement_context t (p ++ [i]) = Some parent_context)
      /\ (_tf_device n = Some NO_DEVICE ->
          op_placement_context t (p ++ [i]) = Some (parent_context ++ [EnterNone]))
      /\ (forall dev, _tf_device n = Some dev -> dev <> NO_DEVICE ->
          op_placement_context t (p ++ [i])
          = Some (parent_context ++ [EnterDevice dev])).
Proof.
  intros t p i n H.
  assert (Hmain : exists A, op_placement_context t p = Some A
                            /\ op_placement_context t (p ++ [i])
                               = Some (A ++ own_device_context n)).
  { revert t H. induction p as [|j p IH]; intros t H.
    - cbn [app get_node op_placement_context] in *.
      destruct (nth_error (children t) i) as [[nm c]|]; [|discriminate].
      injection H as ->. eexists. split; reflexivity.
    - cbn [app get_node op_placement_context] in *.
      destruct (nth_error (children t) j) as [[nm c]|]; [|discriminate].
      destruct (IH c H) as [A [HA HA']]. rewrite HA, HA'.
      eexists. split; [reflexivity|]. now rewrite app_assoc. }
  destruct Hmain as [A [HA HA']]. exists A. split; [exact HA|].
  split; [exact HA'|]. rewrite HA'. unfold own_device_context.
  split; [|split].
  - intros ->. now rewrite app_nil_r.
  - intros ->. reflexivity.
  - intros dev -> Hd. destruct dev; [reflexivity|reflexivity|congruence].
Qed.

Lemma placement_of_a_child_witness :
  let leaf := set_tf_device_field Wrapped.__init__ (Some NO_DEVICE) in
  let t := set_children
             (set_tf_device_field Wrapped.__init__
                (Some (DeviceSpec "/job:worker")))
             [("child"%string, leaf)] in
  get_node t ([] ++ [0]) = Some leaf
  /\ op_placement_context t [0]
     = Some [EnterDevice (DeviceSpec "/job:worker"); EnterNone].
Proof.
  intros leaf t.
  assert (H : get_node t ([] ++ [0]) = Some leaf) by reflexivity.
  split; [exact H|].
  destruct (@placement_of_a_child t [] 0 leaf H) as [A [HA [_ [_ [HN _]]]]].
  cbn in HA. injection HA as <-. exact (HN eq_refl).
Defined.

Lemma op_placement_context_app :
  forall (p : path) (t n : WrappedTF) (r : path),
    get_node t p = Some n ->
    op_placement_context t (p ++ r)
    = option_map (app (ancestors_context t p)) (op_placement_context n r).
Proof.
  induction p as [|i p IH]; intros t n r Hn.
  - cbn in Hn. injection Hn as ->. cbn [app ancestors_context].
    destruct (op_placement_context n r); reflexivity.
  - cbn [app get_node op_placement_context ancestors_context] in *.
    destruct (nth_error (children t) i) as [[nm c]|]; [|discriminate].
    rewrite (IH c n r Hn).
    destruct (op_placement_context n r); cbn [option_map];
      [now rewrite app_assoc|reflexivity].
Qed.

Lemma ancestors_context_update :
  forall (p : path) (t n n' : WrappedTF),
    get_node t p = Some n ->
    ancestors_context (update_node (fun _ => n') t p) p = ancestors_context t p.
Proof.
  induction p as [|i p IH]; intros t n n' Hn; [reflexivity|].
  cbn [get_node] in Hn.
  destruct (nth_error (children t) i) as [[nm c]|] eqn:Ei; [|discriminate].
  cbn [update_node ancestors_context children set_children].
  rewrite nth_error_update_nth_eq, Ei. cbn [option_map fst snd].
  f_equal. eapply IH; eassumption.
Qed.

Lemma op_placement_context_clear :
  forall (r : path) (c : WrappedTF),
    op_placement_context (clear_subtree_cache c) r = op_placement_context c r.
Proof.
  induction r as [|i r IH]; intros c.
  - cbn [op_placement_context]. unfold own_device_context.
    now rewrite (proj1 (fields_clear_subtree_cache c)).
  - cbn [op_placement_context].
    rewrite children_clear_subtree_cache, nth_error_map.
    destruct (nth_error (children c) i) as [[nm ch]|]; [|reflexivity].
    cbn [option_map fst snd]. rewrite IH. unfold own_device_context.
    now rewrite (proj1 (fields_clear_subtree_cache c)).
Qed.

Lemma placement_frame :
  forall (p : path) (t n n' : WrappedTF) (q : path),
    get_node t p = Some n ->
    (forall r, q <> p ++ r) ->
    op_placement_context (update_node (fun _ => n') t p) q
    = op_placement_context t q.
Proof.
  induction p as [|i p IH]; intros t n n' q Hn Hq.
  - exfalso. apply (Hq q). reflexivity.
  - cbn [get_node] in Hn.
    destruct (nth_error (children t) i) as [[nm c]|] eqn:Ei; [|discriminate].
    cbn [update_node]. destruct q as [|j q]; [reflexivity|].
    cbn [op_placement_context children set_children].
    destruct (Nat.eq_dec i j) as [<-|Hij].
    + rewrite nth_error_update_nth_eq, Ei. cbn [option_map fst snd].
      rewrite (IH c n n' q Hn); [reflexivity|].
      intros r ->. apply (Hq r). reflexivity.
    + rewrite nth_error_update_nth_neq by assumption. reflexivity.
Qed.

Lemma placement_below_new_directive :
  forall (n : WrappedTF) (value : option Device) (r : path),
    get_node n r <> None ->
    exists below,
      op_placement_context n r = Some (own_device_context n ++ below)
      /\ op_placement_context
           (set_tf_device_field (clear_subtree_cache n) value) r
         = Some (own_device_context (set_tf_device_field n value) ++ below).
Proof.
  intros n value [|i r] Hr.
  - exists []. cbn [op_placement_context]. now rewrite !app_nil_r.
  - cbn [get_node op_placement_context] in *.
    cbn [children set_tf_device_field].
    rewrite children_clear_subtree_cache, nth_error_map.
    destruct (nth_error (children n) i) as [[nm c]|]; [|congruence].
    cbn [option_map fst snd]. rewrite op_placement_context_clear.
    assert (Hc : op_placement_context c r <> None).
    { clear - Hr. revert c Hr. induction r as [|j r IH]; intros c Hr;
        [discriminate|].
      cbn [get_node op_placement_context] in *.
      destruct (nth_error (children c) j) as [[nm ch]|]; [|congruence].
      specialize (IH ch Hr). destruct (op_placement_context ch r); congruence. }
    destruct (op_placement_context c r) as [ctx|]; [|congruence].
    exists ctx. split; reflexivity.
Qed.

(** X14. Assigning [tf_device] to a node moves the node and the nodes below it:
    in the contexts entered for each of them the new directive takes the
    place of the old one of the node, between what the ancestors
    contribute and what the nodes between contribute, both unchanged.  The
    contexts of the nodes outside that subtree are unchanged. *)
Theorem device_assignment_moves_the_subtree :
  forall (t n : WrappedTF) (p : path) (value : option Device) (w : World)
         (t' : WrappedTF) (w' : World),
    get_node t p = Some n ->
    assign_tf_device t p value w = Some (t', w') ->
    (forall q, (forall r, q <> p ++ r) ->
               op_placement_context t' q = op_placement_context t q)
    /\ (forall r, get_node t (p ++ r) <> None ->
          exists below,
            op_placement_context t (p ++ r)
            = Some (ancestors_context t p ++ own_device_context n ++ below)
            /\ op_placement_context t' (p ++ r)
               = Some (ancestors_context t p
                       ++ own_device_context (set_tf_device_field n value)
                       ++ below)).
Proof.
  intros t n p value w t' w' Hn H.
  unfold assign_tf_device, on_node, tf_device_setter in H. rewrite Hn in H.
  injection H as <- <-. split.
  - intros q Hq. eapply placement_frame; eassumption.
  - intros r Hr. rewrite (@get_node_app p t n r Hn) in Hr.
    destruct (placement_below_new_directive n value r Hr) as [below [Ho Hn']].
    exists below. split.
    + rewrite (@op_placement_context_app p t n r Hn), Ho. reflexivity.
    + set (n' := set_tf_device_field (clear_subtree_cache n) value) in *.
      assert (Hn1 : get_node (update_node (fun _ => n') t p) p = Some n').
      { rewrite <- (app_nil_r p) at 2.
        now rewrite (@get_node_update_below p t n n' [] Hn). }
      rewrite (@op_placement_context_app p _ n' r Hn1), Hn'.
      rewrite (@ancestors_context_update p t n n' Hn). reflexivity.
Qed.

Lemma device_assignment_moves_the_subtree_witness :
  let leaf := Wrapped.__init__ in
  let other := set_tf_device_field Wrapped.__init__ (Some (DeviceFunction 1)) in
  let mid := set_children Wrapped.__init__ [("child"%string, leaf)] in
  let t := set_children Wrapped.__init__
             [("a"%string, mid); ("b"%string, other)] in
  let w := {| fresh := 0; trace := [] |} in
  let gpu := Some (DeviceSpec "/gpu:0") in
  exists t' w',
    get_node t [0] = Some mid
    /\ assign_tf_device t [0] gpu w = Some (t', w')
    /\ op_placement_context t' [1] = op_placement_context t [1]
    /\ op_placement_context t' [0; 0]
       = Some [EnterDevice (DeviceSpec "/gpu:0")].
Proof.
  intros leaf other mid t w gpu.
  assert (Hn : get_node t [0] = Some mid) by reflexivity.
  destruct (assign_tf_device t [0] gpu w) as [[t' w']|] eqn:E; [|discriminate].
  exists t', w'. split; [exact Hn|]. split; [reflexivity|].
  destruct (@device_assignment_moves_the_subtree t mid [0] gpu w t' w' Hn E)
    as [Hout Hin].
  split.
  - apply Hout. intros r. discriminate.
  - destruct (Hin [0]) as [below [Hold Hnew]]; [discriminate|].
    cbn in Hold. injection Hold as <-. exact Hnew.
Defined.

(** * The reusable session context *)

Lemma exit_last :
  forall (l : list Reusable.Context) (c : Reusable.Context) (k : nat)
         (calls : list Reusable.ContextEvent),
    Reusable.__exit__ (Reusable.mkReusable (l ++ [c]) k calls)
    = Reusable.Returned
        (Reusable.mkReusable l k (calls ++ [Reusable.ContextExited c])).
Proof.
  intros l c k calls. unfold Reusable.__exit__.
  cbn [Reusable.__context_manager_stack Reusable.next_context
       Reusable.context_calls].
  destruct (l ++ [c]) as [|c0 rest] eqn:E.
  - destruct l; discriminate.
  - rewrite <- E. rewrite last_last, removelast_last. reflexivity.
Qed.

Lemma enter_times_spec :
  forall (n : nat) (self : Reusable.ReusableContextSession),
    Reusable.enter_times n self
    = Reusable.mkReusable
        (Reusable.__context_manager_stack self
           ++ seq (Reusable.next_context self) n)
        (Reusable.next_context self + n)
        (Reusable.context_calls self
           ++ map Reusable.ContextEntered (seq (Reusable.next_context self) n)).
Proof.
  induction n as [|n IH]; intros [st k calls].
  - cbn. rewrite !app_nil_r, Nat.add_0_r. reflexivity.
  - cbn [Reusable.enter_times]. rewrite IH. unfold Reusable.__enter__.
    cbn [Reusable.__context_manager_stack Reusable.next_context
         Reusable.context_calls seq map].
    rewrite <- !app_assoc. cbn [app]. f_equal. lia.
Qed.

Lemma exit_times_spec :
  forall (l st : list Reusable.Context) (k : nat)
         (calls : list Reusable.ContextEvent),
    Reusable.exit_times (length l) (Reusable.mkReusable (st ++ l) k calls)
    = Reusable.Returned
        (Reusable.mkReusable st k
           (calls ++ map Reusable.ContextExited (rev l))).
Proof.
  induction l as [|c l IH] using rev_ind; intros st k calls.
  - cbn. now rewrite !app_nil_r.
  - rewrite length_app, Nat.add_comm. cbn [length Nat.add Reusable.exit_times].
    rewrite app_assoc, exit_last, IH, rev_app_distr.
    cbn [rev app map]. now rewrite <- app_assoc.
Qed.

(** X15. A session can be entered while it is entered: after [n] nested
    [__enter__] calls, [n] calls of [__exit__] return, exit the contexts in
    the reverse of the order in which they were entered, each one once, and
    leave the list of contexts as it was before; one more [__exit__] on a
    session that was never entered otherwise raises [IndexError]. *)
Theorem exits_undo_enters :
  forall (n : nat) (self : Reusable.ReusableContextSession),
    let entered := seq (Reusable.next_context self) n in
    Reusable.exit_times n (Reusable.enter_times n self)
    = Reusable.Returned
        (Reusable.mkReusable
           (Reusable.__context_manager_stack self)
           (Reusable.next_context self + n)
           (Reusable.context_calls self
              ++ map Reusable.ContextEntered entered
              ++ map Reusable.ContextExited (rev entered)))
    /\ Reusable.exit_times (S n) (Reusable.enter_times n Reusable.__init__)
       = Reusable.IndexError.
Proof.
  intros n self entered.
  assert (Hsplit : forall a b s,
             Reusable.exit_times (a + b) s
             = match Reusable.exit_times a s with
               | Reusable.Returned s' => Reusable.exit_times b s'
               | Reusable.IndexError => Reusable.IndexError
               end).
  { induction a as [|a IH]; intros b s; [reflexivity|].
    cbn [Nat.add Reusable.exit_times].
    destruct (Reusable.__exit__ s); [apply IH|reflexivity]. }
  split.
  - rewrite enter_times_spec.
    pose proof (exit_times_spec entered
                  (Reusable.__context_manager_stack self)
                  (Reusable.next_context self + n)
                  (Reusable.context_calls self
                     ++ map Reusable.ContextEntered entered)) as H.
    unfold entered in H at 1. rewrite length_seq in H. fold entered.
    rewrite H. now rewrite <- app_assoc.
  - rewrite enter_times_spec.
    cbn [Reusable.__init__ Reusable.__context_manager_stack
         Reusable.next_context Reusable.context_calls app].
    replace (S n) with (n + 1) by lia. rewrite Hsplit.
    pose proof (exit_times_spec (seq 0 n) [] (0 + n)
                  (map Reusable.ContextEntered (seq 0 n))) as H.
    rewrite length_seq in H. cbn [app] in H. rewrite H. reflexivity.
Qed.

(** * Further properties of the prior and of the weights *)

(** X8. The prior of a reduction of one child that meets the expert contract
    is the prior of the child: the arithmetic mean over one expert. *)
Theorem Reduction_prior_of_one_child_is_the_child :
  forall (W : Type) (dt : DType) (child : GPModel W) (test_points : Tensor)
         (num_latent : nat) (w w' : W) (mu var : Tensor),
    expert_contract dt child ->
    build_prior_mean_var child test_points num_latent false w
      = (w', Ok (mu, var)) ->
    call_prior_method (Reduction_build_prior_mean_var [child]) test_points
      (Some num_latent) None w
    = (w', Ok (mu, var)).
Proof.
  intros W dt child pts L w w' mu var [Hprior _] Hcall.
  destruct (Hprior pts L w) as [w1 [mu1 [var1 [H1 [Hkm Hkv]]]]].
  rewrite Hcall in H1. injection H1 as <- <- <-.
  destruct Hkm as [_ [Hnm [HLm Hwm]]]. destruct Hkv as [_ [Hnv [HLv Hwv]]].
  assert (HM : mat (nrows mu) (ncols mu) (rows mu)) by now apply well_shaped_mat.
  assert (HV : mat (nrows var) (ncols var) (rows var)) by now apply well_shaped_mat.
  assert (Hone : forall (n c : nat) (A : list (list R)),
             mat n c A -> map (map (fun x => x / INR 1)%R) A = A).
  { intros n c A HA. apply (@mat_ext n c); [now apply map_map_mat|exact HA|].
    intros i j Hi Hj. rewrite (map_map_entry _ HA Hi Hj). cbn [INR]. field. }
  unfold call_prior_method, Reduction_build_prior_mean_var, bind, lift, ret.
  cbn [mapM]. unfold bind, ret, call_prior, call_prior_method. rewrite Hcall.
  cbn [unzip_star map fst snd pack0 forallb length].
  unfold reduce_sum0, tmap.
  cbn [sdtype srows scols slices dtype ncols rows fold_right].
  rewrite (map2_add_zeros HM), (map2_add_zeros HV).
  rewrite (Hone _ _ _ HM), (Hone _ _ _ HV).
  destruct mu, var. reflexivity.
Qed.

Lemma Reduction_prior_of_one_child_is_the_child_witness :
  let test_points := Examples.full 3 1 0 in
  expert_contract float64 Examples.stub_expert
  /\ build_prior_mean_var Examples.stub_expert test_points 2 false 0
     = (1, Ok (Examples.full 3 2 0, Examples.full 3 2 1))
  /\ call_prior_method (Reduction_build_prior_mean_var [Examples.stub_expert])
       test_points (Some 2) None 0
     = (1, Ok (Examples.full 3 2 0, Examples.full 3 2 1)).
Proof.
  intros test_points.
  assert (H : build_prior_mean_var Examples.stub_expert test_points 2 false 0
              = (1, Ok (Examples.full 3 2 0, Examples.full 3 2 1)))
    by reflexivity.
  split; [apply stub_expert_contract|]. split; [exact H|].
  exact (@Reduction_prior_of_one_child_is_the_child nat float64
           Examples.stub_expert test_points 2 0 1 _ _ stub_expert_contract H).
Defined.

(** X9. A weight that [equal_weights] or [ones_weights] returns, whatever
    the experts, the data and the query points are, and a weight that
    [cao_fleet_weights] returns for experts with positive variances, is
    strictly positive at every entry; and the three return one tensor per
    expert. *)
Theorem returned_weights_are_positive :
  forall (W : Type) (dt : DType) (experts : list (GPModel W))
         (X Y points : Tensor) (w w' : W) (ws : list Tensor),
    equal_weights experts X Y points w = (w', Ok ws)
    \/ ones_weights experts X Y points w = (w', Ok ws)
    \/ (Forall (positive_variances_at X Y points dt) experts
        /\ cao_fleet_weights experts X Y points w = (w', Ok ws)) ->
    length ws = length experts
    /\ Forall (all_entries (fun x => 0 < x)%R) ws.
Proof.
  intros W dt experts X Y points w w' ws H. split.
  - destruct (weights_one_per_expert experts X Y points w w' ws)
      as [H1 [H2 H3]].
    destruct H as [H|[H|[_ H]]]; auto.
  - eapply weights_positive. exact H.
Qed.

Lemma returned_weights_are_positive_witness :
  let experts := [Examples.stub_expert; Examples.stub_expert] in
  let X := Examples.full 2 1 0 in
  let points := Examples.full 1 1 0 in
  Forall (positive_variances_at X X points float64) experts
  /\ exists w' ws,
       cao_fleet_weights experts X X points 0 = (w', Ok ws)
       /\ length ws = 2
       /\ Forall (all_entries (fun x => 0 < x)%R) ws.
Proof.
  intros experts X points.
  assert (Hpos : Forall (positive_variances_at X X points float64) experts)
    by (repeat (constructor; [apply stub_expert_positive_variances|]);
        constructor).
  split; [exact Hpos|].
  destruct (cao_fleet_weights experts X X points 0) as [w' [ws|e]] eqn:E.
  - exists w', ws. split; [reflexivity|].
    exact (@returned_weights_are_positive nat float64 experts X X points 0 w' ws
             (or_intror (or_intror (conj Hpos E)))).
  - exfalso. revert E. unfold cao_fleet_weights.
    cbv -[Rplus Rminus Rmult Rdiv Rinv INR ln Rmax float64_eps].
    discriminate.
Defined.
